(** * daf_relation: relation trees, their operations and the local
      simplifications performed by [apply]

    A shallow embedding of the relation-tree data model of
    [lsst.daf.relation] (python/lsst/daf/relation) and of the [apply]
    methods of its operations, followed by the properties of the
    specification that were checked against it.

    Python integers are [Z], [None]-able values are [option], sets of
    column tags are [gset ColumnTag], exceptions are the [Raise] case of
    the [Result] type. *)

From stdpp Require Import base decidable countable gmap strings list.
From Stdlib Require Import ZArith Lia.

#[local] Open Scope Z_scope.

(** ** Exceptions *)

(** The three exception classes of [_exceptions.py] that [apply] raises,
    and Python's own [UnboundLocalError] (see [_applied_unique_key]). *)
Inductive RelationError : Type :=
| ColumnError
| EngineError
| RowOrderError
| UnboundLocalError.

Inductive Result (A : Type) : Type :=
| Ok (value : A)
| Raise (error : RelationError).

Arguments Ok {A} value.
Arguments Raise {A} error.

#[global] Instance Result_ret : MRet Result := fun A x => Ok x.

#[global] Instance Result_bind : MBind Result :=
  fun A B f r => match r with Ok x => f x | Raise e => Raise e end.

(** [UnboundLocalError] is raised by one branch only, the [elif] of
    [_applied_unique_key]; a result is [bound] when it is not that
    exception. *)
Definition bound {A : Type} (r : Result A) : Prop := r ≠ Raise UnboundLocalError.

(** ** Column tags and engines *)

(** [ColumnTag] is a protocol: any hashable object with an [is_key]
    attribute (tests/test_construction.py uses a frozen dataclass with a
    [name]). *)
Record ColumnTag : Type := mkColumnTag { tag_name : string; is_key : bool }.

#[global] Instance ColumnTag_eq_dec : EqDecision ColumnTag.
Proof. solve_decision. Defined.

#[global] Instance ColumnTag_countable : Countable ColumnTag.
Proof.
  refine (inj_countable' (fun t => (tag_name t, is_key t))
                         (fun p => mkColumnTag p.1 p.2) _).
  intros []; reflexivity.
Defined.

Abbreviation Columns := (gset ColumnTag).

(** Engines compare by identity ([GenericConcreteEngine.__eq__] is [is]);
    the number is the identity of the object.  [SqlEngine] is
    [sql.Engine]; every other engine class is outside this part of the
    repository and is an [ExternalEngine]. *)
Inductive Engine : Type :=
| SqlEngine (ident : nat)
| ExternalEngine (ident : nat).

#[global] Instance Engine_eq_dec : EqDecision Engine.
Proof. solve_decision. Defined.

(** ** Column expressions and predicates *)

(** The [_columns] package is not part of the sources at hand; the
    operations use it only through the interface below, over which the
    whole development is parametric.  [flatten_logical_and] returns
    [None] where the Python function returns [False]. *)
Class ColumnModel : Type := {
  ColumnExpression : Type;
  Predicate : Type;
  ColumnExpression_eq_dec :: EqDecision ColumnExpression;
  expression_columns_required : ColumnExpression -> Columns;
  expression_is_supported_by : ColumnExpression -> Engine -> bool;
  predicate_columns_required : Predicate -> Columns;
  predicate_is_supported_by : Predicate -> Engine -> bool;
  as_trivial : Predicate -> option bool;
  logical_and : list Predicate -> Predicate;
  flatten_logical_and : Predicate -> option (list Predicate)
}.

Section Trees.
Context `{ColumnModel}.

(** ** Operations *)

Record SortTerm : Type := mkSortTerm {
  term_expression : ColumnExpression;
  ascending : bool
}.

#[global] Instance SortTerm_eq_dec : EqDecision SortTerm.
Proof. solve_decision. Defined.

(** The concrete unary operations of [_operations/] and [Identity] of
    [_unary_operation.py].  ([PartialJoin] never appears in a tree; it
    is a type of its own, further down.) *)
Inductive UnaryOperation : Type :=
| Calculation (tag : ColumnTag) (expression : ColumnExpression)
| Deduplication (unique_key : option (list ColumnTag))
| Projection (columns : Columns)
| Selection (predicate : Predicate)
| Slice (start : Z) (stop : option Z)
| Sort (terms : list SortTerm)
| Materialization (name : option string)
| Transfer (destination : Engine)
| Identity.

Inductive BinaryOperation : Type :=
| Join (predicate : Predicate) (min_columns : Columns)
       (max_columns : option Columns)
| Chain.

(** What [Engine.preserves_order] accepts. *)
Inductive Operation : Type :=
| Unary (operation : UnaryOperation)
| Binary (operation : BinaryOperation).

(** ** Relations *)

(** The three relation classes.  [columns] and [is_locked] are stored
    fields of the operation relations ([compare=False] in the
    dataclasses); [engine], [min_rows] and [max_rows] are derived.  The
    opaque [payload] is left out.  [LeafRelation] is declared in
    [_leaf_relation.py]; its engine, columns and row bounds are given at
    construction. *)
Inductive Relation : Type :=
| LeafRelation (leaf_engine : Engine) (leaf_name : string)
               (leaf_columns : Columns)
               (leaf_min_rows : Z) (leaf_max_rows : option Z)
| UnaryOperationRelation (operation : UnaryOperation) (target : Relation)
                         (node_columns : Columns) (node_is_locked : bool)
| BinaryOperationRelation (operation : BinaryOperation) (lhs rhs : Relation)
                          (node_columns : Columns) (node_is_locked : bool).

Definition columns (r : Relation) : Columns :=
  match r with
  | LeafRelation _ _ c _ _ => c
  | UnaryOperationRelation _ _ c _ => c
  | BinaryOperationRelation _ _ _ c _ => c
  end.

(** A leaf is never rewritten: every [_insert_recursive] returns on a
    leaf without looking at the flag. *)
Definition is_locked (r : Relation) : bool :=
  match r with
  | LeafRelation _ _ _ _ _ => true
  | UnaryOperationRelation _ _ _ l => l
  | BinaryOperationRelation _ _ _ _ l => l
  end.

(** ** Shapes of trees *)

Definition slice_rooted (r : Relation) : bool :=
  match r with
  | UnaryOperationRelation (Slice _ _) _ _ _ => true
  | _ => false
  end.



(** ** Properties of the operations *)

Definition sort_columns_required (terms : list SortTerm) : Columns :=
  foldl (fun result term => result ∪ expression_columns_required (term_expression term))
        ∅ terms.

Definition columns_required (op : UnaryOperation) : Columns :=
  match op with
  | Calculation _ expression => expression_columns_required expression
  | Projection cols => cols
  | Selection predicate => predicate_columns_required predicate
  | Sort terms => sort_columns_required terms
  | Deduplication _ | Slice _ _ | Materialization _ | Transfer _
  | Identity => ∅
  end.

Definition is_empty_invariant (op : UnaryOperation) : bool :=
  match op with
  | Selection _ | Slice _ _ => false
  | _ => true
  end.

Definition is_count_invariant (op : UnaryOperation) : bool :=
  match op with
  | Deduplication _ | Selection _ | Slice _ _ => false
  | _ => true
  end.

Definition is_order_dependent (op : UnaryOperation) : bool :=
  match op with
  | Slice _ _ => true
  | _ => false
  end.

Definition is_count_dependent (op : UnaryOperation) : bool :=
  match op with
  | Slice _ _ => true
  | _ => false
  end.

(** [Slice.limit] *)
Definition limit (start : Z) (stop : option Z) : option Z :=
  match stop with
  | None => None
  | Some stop => Some (stop - start)
  end.

(** [RowFilter.applied_min_rows], the default of the row filters. *)
Definition RowFilter_applied_min_rows (op : UnaryOperation) (target_min_rows : Z) : Z :=
  if (target_min_rows =? 0) || is_count_invariant op then target_min_rows
  else if is_empty_invariant op then 1
  else 0.

(** The [applied_*] methods read the target only through its derived
    attributes, which are passed here; [applied_min_rows] and the others
    below give them the target itself. *)
Definition unary_min_rows (op : UnaryOperation) (target_min_rows : Z) : Z :=
  match op with
  | Calculation _ _ => target_min_rows
  | Deduplication _ => 1
  | Projection _ => target_min_rows
  | Selection _ => 0
  | Slice start stop =>
      match stop with
      | Some stop => Z.min (stop - start) target_min_rows
      | None => target_min_rows
      end
  | Sort _ | Materialization _ | Transfer _ | Identity => target_min_rows
  end.

(** No operation overrides [UnaryOperation.applied_max_rows] with
    anything but [target.max_rows]. *)
Definition unary_max_rows (op : UnaryOperation) (target_max_rows : option Z) : option Z :=
  target_max_rows.

Definition unary_engine (op : UnaryOperation) (target_engine : Engine) : Engine :=
  match op with
  | Transfer destination => destination
  | _ => target_engine
  end.

Definition binary_min_rows (op : BinaryOperation) (lhs_min_rows rhs_min_rows : Z) : Z :=
  match op with
  | Join _ _ _ => 0
  | Chain => lhs_min_rows + rhs_min_rows
  end.

Definition binary_max_rows (op : BinaryOperation)
    (lhs_max_rows rhs_max_rows : option Z) : option Z :=
  match op with
  | Join _ _ _ =>
      if bool_decide (lhs_max_rows = Some 0) || bool_decide (rhs_max_rows = Some 0)
      then Some 0
      else match lhs_max_rows, rhs_max_rows with
           | Some l, Some r => Some (l * r)
           | _, _ => None
           end
  | Chain =>
      match lhs_max_rows, rhs_max_rows with
      | Some l, Some r => Some (l + r)
      | _, _ => None
      end
  end.

(** ** Derived attributes of relations *)

Fixpoint engine (r : Relation) : Engine :=
  match r with
  | LeafRelation e _ _ _ _ => e
  | UnaryOperationRelation op target _ _ => unary_engine op (engine target)
  | BinaryOperationRelation _ lhs _ _ _ => engine lhs
  end.

Fixpoint min_rows (r : Relation) : Z :=
  match r with
  | LeafRelation _ _ _ m _ => m
  | UnaryOperationRelation op target _ _ => unary_min_rows op (min_rows target)
  | BinaryOperationRelation op lhs rhs _ _ =>
      binary_min_rows op (min_rows lhs) (min_rows rhs)
  end.

Fixpoint max_rows (r : Relation) : option Z :=
  match r with
  | LeafRelation _ _ _ _ m => m
  | UnaryOperationRelation op target _ _ => unary_max_rows op (max_rows target)
  | BinaryOperationRelation op lhs rhs _ _ =>
      binary_max_rows op (max_rows lhs) (max_rows rhs)
  end.

Definition applied_engine (op : UnaryOperation) (target : Relation) : Engine :=
  unary_engine op (engine target).

Definition applied_columns (op : UnaryOperation) (target : Relation) : Columns :=
  match op with
  | Calculation tag _ => columns target ∪ {[tag]}
  | Projection cols => cols
  | _ => columns target
  end.

Definition applied_min_rows (op : UnaryOperation) (target : Relation) : Z :=
  unary_min_rows op (min_rows target).

Definition applied_max_rows (op : UnaryOperation) (target : Relation) : option Z :=
  unary_max_rows op (max_rows target).

Definition binary_applied_columns (op : BinaryOperation) (lhs rhs : Relation) : Columns :=
  match op with
  | Join _ _ _ => columns lhs ∪ columns rhs
  | Chain => columns lhs
  end.

(** Modelled from the spec: [Relation.is_join_identity] is declared in
    [_relation.py]; the spec defines it as
    [columns == ∅ ∧ min_rows == 1 ∧ max_rows == 1]. *)
Definition is_join_identity (r : Relation) : bool :=
  bool_decide (columns r = ∅) && (min_rows r =? 1)
  && bool_decide (max_rows r = Some 1).

(** [UnaryOperation.apply], the base-class method that builds the node. *)
Definition UnaryOperation_apply (op : UnaryOperation) (target : Relation)
    (lock : bool) : Relation :=
  UnaryOperationRelation op target (applied_columns op target) lock.

(** [BinaryOperation.apply] *)
Definition BinaryOperation_apply (op : BinaryOperation) (lhs rhs : Relation)
    (lock : bool) : Relation :=
  BinaryOperationRelation op lhs rhs (binary_applied_columns op lhs rhs) lock.

(** ** Slice *)

Definition is_none {A : Type} (o : option A) : bool :=
  match o with None => true | Some _ => false end.

(** The bounds of the slice that [Slice.apply] builds from a slice and
    the slice it is applied on top of. *)
Definition merged_start (previous_start start : Z) : Z := previous_start + start.

Definition merged_stop (previous_start : Z) (previous_stop stop : option Z) : option Z :=
  match previous_stop with
  | None =>
      match stop with
      | None => None
      | Some stop => Some (stop + previous_start)
      end
  | Some previous_stop =>
      match stop with
      | None => Some previous_stop
      | Some stop => Some (Z.min previous_stop (stop + previous_start))
      end
  end.


(** [Slice.apply] *)
Fixpoint Slice_apply (start : Z) (stop : option Z) (target : Relation)
    (lock : bool) : Relation :=
  if (start =? 0) && is_none stop then target
  else
    match target with
    | UnaryOperationRelation (Slice previous_start previous_stop) nested_target _ _ =>
        Slice_apply (merged_start previous_start start)
                    (merged_stop previous_start previous_stop stop)
                    nested_target lock
    | _ => UnaryOperation_apply (Slice start stop) target lock
    end.

(** ** Constructors that run [__post_init__] *)

(** [Selection(predicate)]: nested ANDs and literal [True] operands are
    simplified away unless the conjunction contains a literal [False]. *)
Definition Selection_post_init (predicate : Predicate) : Predicate :=
  match flatten_logical_and predicate with
  | Some and_sequence => logical_and and_sequence
  | None => predicate
  end.

Definition Selection_init (predicate : Predicate) : UnaryOperation :=
  Selection (Selection_post_init predicate).


(** [Calculation(tag, expression)] *)
Definition Calculation_init (tag : ColumnTag) (expression : ColumnExpression)
    : Result UnaryOperation :=
  if bool_decide (expression_columns_required expression = ∅)
  then Raise ColumnError
  else Ok (Calculation tag expression).

End Trees.

Arguments SortTerm {_}.
Arguments UnaryOperation {_}.
Arguments BinaryOperation {_}.
Arguments Operation {_}.
Arguments Relation {_}.

(** ** Engines as policy objects, and ordered relations *)

(** What the operations need from code outside [_operations/]:
    - [external_preserves_order]: [Engine.preserves_order] of the engine
      classes other than [sql.Engine];
    - [is_ordered] and [without_ordering]: the two halves of
      [Relation.expect_unordered] (see below);
    - [get_relation_name]: [Engine.get_relation_name] (the counter it
      increments is not observed by any operation). *)
Class EngineModel `{ColumnModel} : Type := {
  external_preserves_order : Engine -> Operation -> bool;
  is_ordered : Relation -> bool;
  without_ordering : Relation -> Relation;
  get_relation_name : Engine -> string -> string
}.

Section Apply.
Context `{EngineModel}.

(** [sql.Engine.preserves_order]; [delegate] is the dynamic dispatch of
    [destination.preserves_order(operation)]. *)
Definition sql_preserves_order (delegate : Engine -> Operation -> bool)
    (self : Engine) (operation : Operation) : bool :=
  match operation with
  | Unary (Slice _ _) | Unary (Deduplication _) => true
  | Unary (Transfer destination) =>
      if bool_decide (destination = self) then false
      else delegate destination operation
  | _ => false
  end.

(** The method a delegated call reaches.  It is made on
    [Transfer destination] with [self = destination], where the SQL
    method answers without delegating again, so its own [delegate] is
    never consulted. *)
Definition preserves_order_delegated (self : Engine) (operation : Operation) : bool :=
  match self with
  | SqlEngine _ => sql_preserves_order (fun _ _ => false) self operation
  | ExternalEngine _ => external_preserves_order self operation
  end.

(** [engine.preserves_order(operation)] *)
Definition preserves_order (self : Engine) (operation : Operation) : bool :=
  match self with
  | SqlEngine _ => sql_preserves_order preserves_order_delegated self operation
  | ExternalEngine _ => external_preserves_order self operation
  end.

(** Modelled from the spec: [Relation.expect_unordered] is declared in
    [_relation.py]; the spec says that it raises [RowOrderError] unless
    [strip_ordering], in which case it removes upstream sorts.  The
    callers pass [None] for the message exactly when [strip_ordering] is
    set, so the flag is the argument here. *)
Definition expect_unordered (self : Relation) (strip_ordering : bool)
    : Result Relation :=
  if strip_ordering then Ok (without_ordering self)
  else if is_ordered self then Raise RowOrderError
  else Ok self.

(** The guard that opens most [apply] methods:
    [if not target.engine.preserves_order(self):
         target = target.expect_unordered(...)]. *)
Definition order_guard (operation : Operation) (target : Relation)
    (strip_ordering : bool) : Result Relation :=
  if preserves_order (engine target) operation then Ok target
  else expect_unordered target strip_ordering.

(** ** Placing an operation on its target

    The [_here] functions are the [apply] methods with
    [preferred_engine=None], where [backtrack], [transfer] and
    [require_preferred_engine] are not consulted; the [_default] ones
    have every keyword argument at its default. *)

(** [Transfer.apply] *)
Definition Transfer_apply (destination : Engine) (target : Relation)
    (lock strip_ordering : bool) : Result Relation :=
  if bool_decide (engine target = destination) then Ok target
  else
    target ← order_guard (Unary (Transfer destination)) target strip_ordering;
    Ok (UnaryOperation_apply (Transfer destination) target lock).

(** [Materialization.apply] *)
Definition Materialization_apply (name : option string) (target : Relation)
    (name_prefix : string) (lock strip_ordering : bool) : Result Relation :=
  match target with
  | LeafRelation _ _ _ _ _ => Ok target
  | UnaryOperationRelation (Materialization _) _ _ _ => Ok target
  | _ =>
      target ← order_guard (Unary (Materialization name)) target strip_ordering;
      let operation :=
        match name with
        | None => Materialization (Some (get_relation_name (engine target) name_prefix))
        | Some _ => Materialization name
        end in
      Ok (UnaryOperation_apply operation target lock)
  end.

(** The column tests of [Calculation.apply]. *)
Definition Calculation_check_columns (tag : ColumnTag)
    (expression : ColumnExpression) (target : Relation) : Result unit :=
  if negb (bool_decide (expression_columns_required expression ⊆ columns target))
  then Raise ColumnError
  else if bool_decide (tag ∈ columns target) then Raise ColumnError
  else Ok tt.

(** The end of [Calculation.apply], from the test of the engine on. *)
Definition Calculation_finish (tag : ColumnTag) (expression : ColumnExpression)
    (target : Relation) (lock : bool) : Result Relation :=
  if negb (expression_is_supported_by expression (engine target))
  then Raise EngineError
  else Ok (UnaryOperation_apply (Calculation tag expression) target lock).

(** [Calculation.apply] with [preferred_engine=None] *)
Definition Calculation_apply_here (tag : ColumnTag) (expression : ColumnExpression)
    (target : Relation) (lock strip_ordering : bool) : Result Relation :=
  target ← order_guard (Unary (Calculation tag expression)) target strip_ordering;
  _ ← Calculation_check_columns tag expression target;
  Calculation_finish tag expression target lock.

(** [Selection.apply] with every keyword argument at its default, as
    the method calls itself to merge two selections. *)
Fixpoint Selection_apply_default (predicate : Predicate) (target : Relation)
    {struct target} : Result Relation :=
  if bool_decide (as_trivial predicate = Some true) then Ok target
  else if negb (bool_decide (predicate_columns_required predicate ⊆ columns target))
  then Raise ColumnError
  else
    match order_guard (Unary (Selection predicate)) target false with
    | Raise e => Raise e
    | Ok _ =>
        if negb (predicate_is_supported_by predicate (engine target))
        then Raise EngineError
        else
          match target with
          | UnaryOperationRelation (Selection other_predicate) nested_target _ _ =>
              Selection_apply_default
                (Selection_post_init (logical_and [other_predicate; predicate]))
                nested_target
          | _ => Ok (UnaryOperation_apply (Selection predicate) target false)
          end
    end.

(** The end of [Selection.apply], from the test of the engine on. *)
Definition Selection_finish (predicate : Predicate) (target : Relation)
    (lock : bool) : Result Relation :=
  if negb (predicate_is_supported_by predicate (engine target))
  then Raise EngineError
  else
    match target with
    | UnaryOperationRelation (Selection other_predicate) nested_target _ _ =>
        Selection_apply_default
          (Selection_post_init (logical_and [other_predicate; predicate]))
          nested_target
    | _ => Ok (UnaryOperation_apply (Selection predicate) target lock)
    end.

(** [Selection.apply] with [preferred_engine=None] *)
Definition Selection_apply_here (predicate : Predicate) (target : Relation)
    (lock strip_ordering : bool) : Result Relation :=
  if bool_decide (as_trivial predicate = Some true) then Ok target
  else if negb (bool_decide (predicate_columns_required predicate ⊆ columns target))
  then Raise ColumnError
  else
    target ← order_guard (Unary (Selection predicate)) target strip_ordering;
    Selection_finish predicate target lock.

(** [Projection.apply] with every keyword argument at its default, as
    the method calls itself to fold a projection or to absorb a
    calculation. *)
Fixpoint Projection_apply_default (cols : Columns) (target : Relation)
    {struct target} : Result Relation :=
  if bool_decide (cols = columns target) then Ok target
  else
    match order_guard (Unary (Projection cols)) target false with
    | Raise e => Raise e
    | Ok _ =>
        if negb (bool_decide (cols ⊆ columns target)) then Raise ColumnError
        else
          match target with
          | UnaryOperationRelation (Projection _) nested_target _ _ =>
              Projection_apply_default cols nested_target
          | UnaryOperationRelation (Calculation tag _) nested_target _ _ =>
              if bool_decide (tag ∉ cols)
              then Projection_apply_default cols nested_target
              else Ok (UnaryOperation_apply (Projection cols) target false)
          | _ => Ok (UnaryOperation_apply (Projection cols) target false)
          end
    end.

(** [Projection.apply] with [preferred_engine=None].
    ([Projection._insert_recursive] tells a rewritten branch from an
    untouched one by the identity of the objects; it is not part of
    this development.) *)
Definition Projection_apply_here (cols : Columns) (target : Relation)
    (lock strip_ordering : bool) : Result Relation :=
  if bool_decide (cols = columns target) then Ok target
  else
    target ← order_guard (Unary (Projection cols)) target strip_ordering;
    if negb (bool_decide (cols ⊆ columns target)) then Raise ColumnError
    else
      match target with
      | UnaryOperationRelation (Projection _) nested_target _ _ =>
          Projection_apply_default cols nested_target
      | UnaryOperationRelation (Calculation tag _) nested_target _ _ =>
          if bool_decide (tag ∉ cols)
          then Projection_apply_default cols nested_target
          else Ok (UnaryOperation_apply (Projection cols) target lock)
      | _ => Ok (UnaryOperation_apply (Projection cols) target lock)
      end.

(** The loop over the terms in [Sort.apply]. *)
Fixpoint check_sort_terms (terms : list SortTerm) (target : Relation)
    : Result unit :=
  match terms with
  | [] => Ok tt
  | term :: terms =>
      if negb (expression_is_supported_by (term_expression term) (engine target))
      then Raise EngineError
      else if negb (bool_decide
                      (expression_columns_required (term_expression term)
                       ⊆ columns target))
      then Raise ColumnError
      else check_sort_terms terms target
  end.

(** The terms of two merged sorts: the new terms, then the previous ones
    that are not among them yet. *)
Definition merged_terms (terms previous_terms : list SortTerm) : list SortTerm :=
  foldl (fun new_terms term =>
           if bool_decide (term ∈ new_terms) then new_terms
           else new_terms ++ [term])
        terms previous_terms.

(** [Sort.apply] with [preferred_engine=None], as the method calls
    itself to merge two sorts. *)
Fixpoint Sort_apply_here (terms : list SortTerm) (target : Relation) (lock : bool)
    {struct target} : Result Relation :=
  match terms with
  | [] => Ok target
  | _ =>
      _ ← check_sort_terms terms target;
      match target with
      | UnaryOperationRelation (Sort previous_terms) nested_target _ _ =>
          Sort_apply_here (merged_terms terms previous_terms) nested_target lock
      | _ => Ok (UnaryOperation_apply (Sort terms) target lock)
      end
  end.

(** ** Deduplication *)

(** [Deduplication._applied_unique_key].  In the [elif] branch the
    method reads its local variable [unique_key], which is only bound in
    the [if] branch: evaluating the test raises [UnboundLocalError]. *)
Definition Deduplication_applied_unique_key (unique_key : option (list ColumnTag))
    (target : Relation) : Result (list ColumnTag) :=
  match unique_key with
  | None =>
      match filter (fun c => is_key c = true) (elements (columns target)) with
      | [] => Raise ColumnError
      | key => Ok key
      end
  | Some _ => Raise UnboundLocalError
  end.

(** [Deduplication.apply] with [preferred_engine=None], once
    [unique_key] is not [None].  The node is built by [super().apply]
    without [lock]. *)
Definition Deduplication_apply_resolved (key : list ColumnTag) (target : Relation)
    (lock strip_ordering : bool) : Result Relation :=
  target ← order_guard (Unary (Deduplication (Some key))) target strip_ordering;
  Ok (UnaryOperation_apply (Deduplication (Some key)) target false).

(** [Deduplication.apply] with [preferred_engine=None] *)
Definition Deduplication_apply_here (unique_key : option (list ColumnTag))
    (target : Relation) (lock strip_ordering : bool) : Result Relation :=
  match unique_key with
  | None =>
      target ← order_guard (Unary (Deduplication None)) target strip_ordering;
      key ← Deduplication_applied_unique_key None target;
      Deduplication_apply_resolved key target lock strip_ordering
  | Some key => Deduplication_apply_resolved key target lock strip_ordering
  end.

(** ** Dynamic dispatch of [operation.apply(target)] *)

(** [operation.apply(target)] with every keyword argument at its
    default, as the [_insert_recursive] methods call it. *)
Definition apply_operation (operation : UnaryOperation) (target : Relation)
    : Result Relation :=
  match operation with
  | Calculation tag expression =>
      Calculation_apply_here tag expression target false false
  | Deduplication unique_key => Deduplication_apply_here unique_key target false false
  | Projection cols => Projection_apply_here cols target false false
  | Selection predicate => Selection_apply_here predicate target false false
  | Slice start stop => Ok (Slice_apply start stop target false)
  | Sort terms => Sort_apply_here terms target false
  | Materialization name =>
      Materialization_apply name target "materialization" true false
  | Transfer destination => Transfer_apply destination target false false
  | Identity => Ok target
  end.

(** ** Join and Chain *)

(** [Join.common_columns] *)
Definition common_columns (min_columns : Columns) (max_columns : option Columns)
    : Result Columns :=
  if bool_decide (max_columns = Some min_columns) then Ok min_columns
  else Raise ColumnError.

(** [Join.applied_common_columns] *)
Definition applied_common_columns (min_columns : Columns)
    (max_columns : option Columns) (lhs rhs : Relation) : Result Columns :=
  if bool_decide (max_columns ≠ Some min_columns) then
    let common := filter (fun tag => is_key tag = true) (columns lhs ∩ columns rhs) in
    let common :=
      match max_columns with
      | Some max_columns => common ∩ max_columns
      | None => common
      end in
    if negb (bool_decide (min_columns ⊆ common)) then Raise ColumnError
    else Ok common
  else Ok min_columns.

(** [Join.apply].  Both tests of the resolved branch read [lhs.columns]. *)
Definition Join_apply (predicate : Predicate) (min_columns : Columns)
    (max_columns : option Columns) (lhs rhs : Relation)
    (lock strip_ordering : bool) : Result Relation :=
  if bool_decide (engine lhs ≠ engine rhs) then Raise EngineError
  else if negb (predicate_is_supported_by predicate (engine lhs))
  then Raise EngineError
  else if negb (bool_decide (predicate_columns_required predicate
                             ⊆ binary_applied_columns
                                 (Join predicate min_columns max_columns) lhs rhs))
  then Raise ColumnError
  else
    operation ←
      (if bool_decide (max_columns ≠ Some min_columns) then
         common ← applied_common_columns min_columns max_columns lhs rhs;
         Ok (Join predicate common (Some common))
       else
         common ← common_columns min_columns max_columns;
         if negb (bool_decide (common ⊆ columns lhs)) then Raise ColumnError
         else if negb (bool_decide (common ⊆ columns lhs)) then Raise ColumnError
         else Ok (Join predicate min_columns max_columns));
    lhs ← expect_unordered lhs strip_ordering;
    rhs ← expect_unordered rhs strip_ordering;
    if is_join_identity lhs then Ok rhs
    else if is_join_identity rhs then Ok lhs
    else Ok (BinaryOperation_apply operation lhs rhs lock).

(** [Chain.apply] *)
Definition Chain_apply (lhs rhs : Relation) (lock strip_ordering : bool)
    : Result Relation :=
  lhs ← order_guard (Binary Chain) lhs strip_ordering;
  rhs ← order_guard (Binary Chain) rhs strip_ordering;
  if bool_decide (engine lhs ≠ engine rhs) then Raise EngineError
  else if bool_decide (columns lhs ≠ columns rhs) then Raise ColumnError
  else Ok (BinaryOperation_apply Chain lhs rhs lock).

(** [operation.apply(lhs, rhs)] with every keyword argument at its
    default. *)
Definition apply_binary_operation (operation : BinaryOperation)
    (lhs rhs : Relation) : Result Relation :=
  match operation with
  | Join predicate min_columns max_columns =>
      Join_apply predicate min_columns max_columns lhs rhs false false
  | Chain => Chain_apply lhs rhs false false
  end.

(** ** Reaching the preferred engine *)

(** What the block on [preferred_engine] leaves to the rest of [apply]:
    the relation to return at once, or the target to go on with. *)
Inductive Placement : Type :=
| Inserted (result : Relation)
| GoOn (target : Relation).

(** The block that [Calculation.apply], [Deduplication.apply],
    [Selection.apply] and [Sort.apply] share:
    [if preferred_engine is not None and preferred_engine != target.engine:
         if backtrack and (result := self._insert_recursive(...)):
             return result
         elif transfer:
             target = Transfer(preferred_engine).apply(target)
         elif require_preferred_engine:
             raise EngineError(...)]. *)
Definition reach_preferred_engine
    (insert_recursive : Relation -> Engine -> Result (option Relation))
    (target : Relation) (preferred_engine : option Engine)
    (backtrack transfer require_preferred_engine : bool) : Result Placement :=
  match preferred_engine with
  | Some preferred_engine =>
      if bool_decide (preferred_engine ≠ engine target) then
        found ← (if backtrack then insert_recursive target preferred_engine
                 else Ok None);
        match found with
        | Some result => Ok (Inserted result)
        | None =>
            if transfer then
              target ← Transfer_apply preferred_engine target false false;
              Ok (GoOn target)
            else if require_preferred_engine then Raise EngineError
            else Ok (GoOn target)
        end
      else Ok (GoOn target)
  | None => Ok (GoOn target)
  end.

(** The end of an [_insert_recursive] on a unary operation relation:
    [return operation.apply(new_target)] when the recursion found a
    place. *)
Definition reapply (operation : UnaryOperation) (new_target : option Relation)
    : Result (option Relation) :=
  match new_target with
  | Some new_target =>
      result ← apply_operation operation new_target;
      Ok (Some result)
  | None => Ok None
  end.

(** [Calculation._insert_recursive]; [Ok None] is the method returning
    [None]. *)
Fixpoint Calculation_insert_recursive (tag : ColumnTag)
    (expression : ColumnExpression) (target : Relation)
    (preferred_engine : Engine) (lock : bool)
    {struct target} : Result (option Relation) :=
  if is_locked target then Ok None
  else
    match target with
    | UnaryOperationRelation operation next_target _ _ =>
        let operation :=
          match operation with
          | Projection cols => Projection (cols ∪ {[tag]})
          | _ => operation
          end in
        if negb (bool_decide (expression_columns_required expression
                              ⊆ columns next_target))
        then Ok None
        else if is_order_dependent operation
                && negb (preserves_order (engine next_target)
                           (Unary (Calculation tag expression)))
        then Ok None
        else if bool_decide (engine next_target = preferred_engine) then
          inner ← Calculation_apply_here tag expression next_target lock false;
          reapply operation (Some inner)
        else
          new_target ← Calculation_insert_recursive
                         tag expression next_target preferred_engine lock;
          reapply operation new_target
    | BinaryOperationRelation (Join _ _ _ as operation) next_lhs next_rhs _ _ =>
        new_join_lhs ←
          (if bool_decide (expression_columns_required expression ⊆ columns next_lhs)
           then Calculation_insert_recursive
                  tag expression next_lhs preferred_engine lock
           else Ok None);
        match new_join_lhs with
        | Some new_join_lhs =>
            result ← apply_binary_operation operation new_join_lhs next_rhs;
            Ok (Some result)
        | None =>
            new_join_rhs ←
              (if bool_decide (expression_columns_required expression
                               ⊆ columns next_rhs)
               then Calculation_insert_recursive
                      tag expression next_rhs preferred_engine lock
               else Ok None);
            match new_join_rhs with
            | Some new_join_rhs =>
                result ← apply_binary_operation operation next_lhs new_join_rhs;
                Ok (Some result)
            | None => Ok None
            end
        end
    | BinaryOperationRelation Chain next_lhs next_rhs _ _ =>
        new_union_lhs ← Calculation_insert_recursive
                          tag expression next_lhs preferred_engine lock;
        new_union_rhs ← Calculation_insert_recursive
                          tag expression next_rhs preferred_engine lock;
        match new_union_lhs, new_union_rhs with
        | Some new_union_lhs, Some new_union_rhs =>
            result ← apply_binary_operation Chain new_union_lhs new_union_rhs;
            Ok (Some result)
        | _, _ => Ok None
        end
    | LeafRelation _ _ _ _ _ => Ok None
    end.

(** [Calculation.apply] *)
Definition Calculation_apply (tag : ColumnTag) (expression : ColumnExpression)
    (target : Relation) (preferred_engine : option Engine)
    (backtrack transfer require_preferred_engine lock strip_ordering : bool)
    : Result Relation :=
  target ← order_guard (Unary (Calculation tag expression)) target strip_ordering;
  _ ← Calculation_check_columns tag expression target;
  placement ← reach_preferred_engine
                (fun target preferred_engine =>
                   Calculation_insert_recursive
                     tag expression target preferred_engine lock)
                target preferred_engine backtrack transfer require_preferred_engine;
  match placement with
  | Inserted result => Ok result
  | GoOn target => Calculation_finish tag expression target lock
  end.

(** [Selection._insert_recursive].  In the [Join] case a branch that
    could not be rewritten is kept, and the join is rebuilt when one of
    the two was rewritten. *)
Fixpoint Selection_insert_recursive (predicate : Predicate) (target : Relation)
    (preferred_engine : Engine) (lock : bool)
    {struct target} : Result (option Relation) :=
  if is_locked target then Ok None
  else
    match target with
    | UnaryOperationRelation operation next_target _ _ =>
        if is_count_dependent operation then Ok None
        else if is_order_dependent operation
                && negb (preserves_order (engine next_target)
                           (Unary (Selection predicate)))
        then Ok None
        else if negb (bool_decide (predicate_columns_required predicate
                                   ⊆ columns next_target))
        then Ok None
        else if bool_decide (engine next_target = preferred_engine) then
          inner ← Selection_apply_here predicate next_target lock false;
          reapply operation (Some inner)
        else
          new_target ← Selection_insert_recursive
                         predicate next_target preferred_engine lock;
          reapply operation new_target
    | BinaryOperationRelation (Join _ _ _ as operation) next_lhs next_rhs _ _ =>
        new_join_lhs ←
          (if bool_decide (predicate_columns_required predicate ⊆ columns next_lhs)
           then Selection_insert_recursive predicate next_lhs preferred_engine lock
           else Ok None);
        new_join_rhs ←
          (if bool_decide (predicate_columns_required predicate ⊆ columns next_rhs)
           then Selection_insert_recursive predicate next_rhs preferred_engine lock
           else Ok None);
        match new_join_lhs, new_join_rhs with
        | None, None => Ok None
        | _, _ =>
            result ← apply_binary_operation operation
                       (default next_lhs new_join_lhs)
                       (default next_rhs new_join_rhs);
            Ok (Some result)
        end
    | BinaryOperationRelation Chain next_lhs next_rhs _ _ =>
        new_union_lhs ← Selection_insert_recursive
                          predicate next_lhs preferred_engine lock;
        new_union_rhs ← Selection_insert_recursive
                          predicate next_rhs preferred_engine lock;
        match new_union_lhs, new_union_rhs with
        | Some new_union_lhs, Some new_union_rhs =>
            result ← apply_binary_operation Chain new_union_lhs new_union_rhs;
            Ok (Some result)
        | _, _ => Ok None
        end
    | LeafRelation _ _ _ _ _ => Ok None
    end.

(** [Selection.apply] *)
Definition Selection_apply (predicate : Predicate) (target : Relation)
    (preferred_engine : option Engine)
    (backtrack transfer require_preferred_engine lock strip_ordering : bool)
    : Result Relation :=
  if bool_decide (as_trivial predicate = Some true) then Ok target
  else if negb (bool_decide (predicate_columns_required predicate ⊆ columns target))
  then Raise ColumnError
  else
    target ← order_guard (Unary (Selection predicate)) target strip_ordering;
    placement ← reach_preferred_engine
                  (fun target preferred_engine =>
                     Selection_insert_recursive predicate target preferred_engine lock)
                  target preferred_engine backtrack transfer
                  require_preferred_engine;
    match placement with
    | Inserted result => Ok result
    | GoOn target => Selection_finish predicate target lock
    end.

(** [Sort._insert_recursive] *)
Fixpoint Sort_insert_recursive (terms : list SortTerm) (target : Relation)
    (preferred_engine : Engine) (lock : bool)
    {struct target} : Result (option Relation) :=
  if is_locked target then Ok None
  else
    match target with
    | UnaryOperationRelation operation next_target _ _ =>
        if negb (preserves_order (engine target) (Unary operation)) then Ok None
        else if is_order_dependent operation then Ok None
        else if bool_decide (engine next_target = preferred_engine) then
          inner ← Sort_apply_here terms next_target lock;
          reapply operation (Some inner)
        else
          new_target ← Sort_insert_recursive terms next_target preferred_engine lock;
          reapply operation new_target
    | _ => Ok None
    end.

(** [Sort.apply] *)
Definition Sort_apply (terms : list SortTerm) (target : Relation)
    (preferred_engine : option Engine)
    (backtrack transfer require_preferred_engine lock : bool) : Result Relation :=
  match terms with
  | [] => Ok target
  | _ =>
      placement ← reach_preferred_engine
                    (fun target preferred_engine =>
                       Sort_insert_recursive terms target preferred_engine lock)
                    target preferred_engine backtrack transfer
                    require_preferred_engine;
      match placement with
      | Inserted result => Ok result
      | GoOn target => Sort_apply_here terms target lock
      end
  end.

(** [Deduplication._insert_recursive].  In the [Join] case both
    branches are rewritten and the join is applied to [new_join_rhs]
    twice. *)
Fixpoint Deduplication_insert_recursive (unique_key : option (list ColumnTag))
    (target : Relation) (preferred_engine : Engine) (lock : bool)
    {struct target} : Result (option Relation) :=
  if is_locked target then Ok None
  else
    match target with
    | UnaryOperationRelation operation next_target _ _ =>
        if match operation with Deduplication _ => true | _ => false end
        then Ok (Some target)
        else if is_count_dependent operation then Ok None
        else if is_order_dependent operation
                && negb (preserves_order (engine next_target) (Unary operation))
        then Ok None
        else if negb (bool_decide (columns next_target ⊆ columns target))
        then Ok None
        else if bool_decide (engine next_target = preferred_engine) then
          inner ← Deduplication_apply_here unique_key next_target lock false;
          reapply operation (Some inner)
        else
          new_target ← Deduplication_insert_recursive
                         unique_key next_target preferred_engine lock;
          reapply operation new_target
    | BinaryOperationRelation (Join _ _ _ as operation) next_lhs next_rhs _ _ =>
        new_join_lhs ← Deduplication_insert_recursive
                         unique_key next_lhs preferred_engine lock;
        new_join_rhs ← Deduplication_insert_recursive
                         unique_key next_rhs preferred_engine lock;
        match new_join_lhs, new_join_rhs with
        | Some _, Some new_join_rhs =>
            result ← apply_binary_operation operation new_join_rhs new_join_rhs;
            Ok (Some result)
        | _, _ => Ok None
        end
    | _ => Ok None
    end.

(** The part of [Deduplication.apply] that follows the resolution of
    [unique_key].  The node is built by [super().apply] without
    [lock]. *)
Definition Deduplication_apply_with_key (key : list ColumnTag) (target : Relation)
    (preferred_engine : option Engine)
    (backtrack transfer require_preferred_engine lock strip_ordering : bool)
    : Result Relation :=
  target ← order_guard (Unary (Deduplication (Some key))) target strip_ordering;
  placement ← reach_preferred_engine
                (fun target preferred_engine =>
                   Deduplication_insert_recursive
                     (Some key) target preferred_engine lock)
                target preferred_engine backtrack transfer require_preferred_engine;
  match placement with
  | Inserted result => Ok result
  | GoOn target => Ok (UnaryOperation_apply (Deduplication (Some key)) target false)
  end.

(** [Deduplication.apply]: a [unique_key] that is [None] is resolved on
    the target that passed the order guard, and the method is called
    again with the key. *)
Definition Deduplication_apply (unique_key : option (list ColumnTag))
    (target : Relation) (preferred_engine : option Engine)
    (backtrack transfer require_preferred_engine lock strip_ordering : bool)
    : Result Relation :=
  match unique_key with
  | None =>
      target ← order_guard (Unary (Deduplication None)) target strip_ordering;
      key ← Deduplication_applied_unique_key None target;
      Deduplication_apply_with_key key target preferred_engine
        backtrack transfer require_preferred_engine lock strip_ordering
  | Some key =>
      Deduplication_apply_with_key key target preferred_engine
        backtrack transfer require_preferred_engine lock strip_ordering
  end.

End Apply.

(** ** Partial joins *)

Section PartialJoins.
Context `{EngineModel}.

(** [PartialJoin]: a join with one operand held fixed.  [binary] is the
    [Join] of the dataclass, given by its three fields. *)
Record PartialJoin : Type := mkPartialJoin {
  binary_predicate : Predicate;
  binary_min_columns : Columns;
  binary_max_columns : option Columns;
  fixed : Relation;
  fixed_is_lhs : bool
}.

Definition binary (self : PartialJoin) : BinaryOperation :=
  Join (binary_predicate self) (binary_min_columns self) (binary_max_columns self).

(** [Join.partial]; [fix_] is its argument [fix]. *)
Definition Join_partial (predicate : Predicate) (min_columns : Columns)
    (max_columns : option Columns) (fix_ : Relation)
    (is_lhs strip_ordering : bool) : Result PartialJoin :=
  if negb (bool_decide (min_columns ⊆ columns fix_)) then Raise ColumnError
  else
    fix_ ← expect_unordered fix_ strip_ordering;
    Ok (mkPartialJoin predicate min_columns max_columns fix_ is_lhs).

(** [PartialJoin.columns_required] *)
Definition PartialJoin_columns_required (self : PartialJoin) : Columns :=
  (predicate_columns_required (binary_predicate self) ∖ columns (fixed self))
  ∪ binary_min_columns self.

(** [PartialJoin.applied_engine]; [BinaryOperation.applied_engine] is
    the engine of [lhs]. *)
Definition PartialJoin_applied_engine (self : PartialJoin) (target : Relation)
    : Engine :=
  if fixed_is_lhs self then engine (fixed self) else engine target.

(** [PartialJoin.applied_columns] *)
Definition PartialJoin_applied_columns (self : PartialJoin) (target : Relation)
    : Columns :=
  if fixed_is_lhs self then binary_applied_columns (binary self) (fixed self) target
  else binary_applied_columns (binary self) target (fixed self).

(** [PartialJoin.applied_min_rows] *)
Definition PartialJoin_applied_min_rows (self : PartialJoin) (target : Relation)
    : Z :=
  if fixed_is_lhs self
  then binary_min_rows (binary self) (min_rows (fixed self)) (min_rows target)
  else binary_min_rows (binary self) (min_rows target) (min_rows (fixed self)).

(** [PartialJoin.applied_max_rows] *)
Definition PartialJoin_applied_max_rows (self : PartialJoin) (target : Relation)
    : option Z :=
  if fixed_is_lhs self
  then binary_max_rows (binary self) (max_rows (fixed self)) (max_rows target)
  else binary_max_rows (binary self) (max_rows target) (max_rows (fixed self)).

(** The end of [PartialJoin.apply]:
    [self.binary.apply(self.fixed, target, ...)] or
    [self.binary.apply(target, self.fixed, ...)]. *)
Definition PartialJoin_join (self : PartialJoin) (target : Relation)
    (lock strip_ordering : bool) : Result Relation :=
  if fixed_is_lhs self
  then Join_apply (binary_predicate self) (binary_min_columns self)
         (binary_max_columns self) (fixed self) target lock strip_ordering
  else Join_apply (binary_predicate self) (binary_min_columns self)
         (binary_max_columns self) target (fixed self) lock strip_ordering.

(** [PartialJoin.apply] on a join with resolved common columns and a
    target in the engine of [fixed], as [_insert_recursive] calls it:
    neither the replacement of the join nor the block on the engines is
    entered. *)
Definition PartialJoin_apply_here (self : PartialJoin) (target : Relation)
    (lock strip_ordering : bool) : Result Relation :=
  if negb (bool_decide (PartialJoin_columns_required self ⊆ columns target))
  then Raise ColumnError
  else PartialJoin_join self target lock strip_ordering.

(** [PartialJoin._insert_recursive].  The [assert] that opens it reads
    [self.binary.common_columns], which raises [ColumnError] on a join
    whose common columns are not resolved. *)
Fixpoint PartialJoin_insert_recursive (self : PartialJoin) (target : Relation)
    (lock : bool) {struct target} : Result (option Relation) :=
  _ ← common_columns (binary_min_columns self) (binary_max_columns self);
  if is_locked target then Ok None
  else
    match target with
    | UnaryOperationRelation operation next_target _ _ =>
        match operation with
        | Deduplication _ => Ok None
        | _ =>
            let operation :=
              match operation with
              | Projection _ => Projection (PartialJoin_applied_columns self target)
              | _ => operation
              end in
            if is_order_dependent operation then Ok None
            else if is_count_dependent operation then Ok None
            else if negb (bool_decide (PartialJoin_columns_required self
                                       ⊆ columns next_target))
            then Ok None
            else if bool_decide (engine next_target = engine (fixed self)) then
              inner ← PartialJoin_apply_here self next_target lock false;
              reapply operation (Some inner)
            else
              new_target ← PartialJoin_insert_recursive self next_target lock;
              reapply operation new_target
        end
    | BinaryOperationRelation (Join _ _ _ as operation) next_lhs next_rhs _ _ =>
        new_join_lhs ←
          (if bool_decide (PartialJoin_columns_required self ⊆ columns next_lhs)
           then PartialJoin_insert_recursive self next_lhs lock
           else Ok None);
        match new_join_lhs with
        | Some new_join_lhs =>
            result ← apply_binary_operation operation new_join_lhs next_rhs;
            Ok (Some result)
        | None =>
            new_join_rhs ←
              (if bool_decide (PartialJoin_columns_required self
                               ⊆ columns next_rhs)
               then PartialJoin_insert_recursive self next_rhs lock
               else Ok None);
            match new_join_rhs with
            | Some new_join_rhs =>
                result ← apply_binary_operation operation next_lhs new_join_rhs;
                Ok (Some result)
            | None => Ok None
            end
        end
    | BinaryOperationRelation Chain next_lhs next_rhs _ _ =>
        new_union_lhs ← PartialJoin_insert_recursive self next_lhs lock;
        new_union_rhs ← PartialJoin_insert_recursive self next_rhs lock;
        match new_union_lhs, new_union_rhs with
        | Some new_union_lhs, Some new_union_rhs =>
            result ← apply_binary_operation Chain new_union_lhs new_union_rhs;
            Ok (Some result)
        | _, _ => Ok None
        end
    | LeafRelation _ _ _ _ _ => Ok None
    end.

(** [PartialJoin.apply] from the column test on, for a join that went
    through the test on its common columns.  The block on the engines
    is that of the other operations with [fixed.engine] for the
    preferred engine, and it raises [EngineError] when neither
    [_insert_recursive] nor [transfer] gives a target in that engine. *)
Definition PartialJoin_apply_resolved (self : PartialJoin) (target : Relation)
    (backtrack transfer strip_ordering lock : bool) : Result Relation :=
  if negb (bool_decide (PartialJoin_columns_required self ⊆ columns target))
  then Raise ColumnError
  else
    placement ←
      (if bool_decide (engine target ≠ engine (fixed self)) then
         found ← (if backtrack then PartialJoin_insert_recursive self target lock
                  else Ok None);
         match found with
         | Some result => Ok (Inserted result)
         | None =>
             if transfer then
               target ← Transfer_apply (engine (fixed self)) target false false;
               Ok (GoOn target)
             else Raise EngineError
         end
       else Ok (GoOn target));
    match placement with
    | Inserted result => Ok result
    | GoOn target => PartialJoin_join self target lock strip_ordering
    end.

(** [PartialJoin.apply].  A join whose common columns are not resolved
    is replaced by one in which they are, and [apply] is called on the
    replacement with [backtrack] and [transfer] only: [strip_ordering]
    and [lock] are back at their defaults. *)
Definition PartialJoin_apply (self : PartialJoin) (target : Relation)
    (backtrack transfer strip_ordering lock : bool) : Result Relation :=
  if bool_decide (binary_max_columns self ≠ Some (binary_min_columns self)) then
    common ← applied_common_columns (binary_min_columns self)
               (binary_max_columns self) (fixed self) target;
    let replacement :=
      mkPartialJoin (binary_predicate self) common (Some common)
        (fixed self) (fixed_is_lhs self) in
    PartialJoin_apply_resolved replacement target backtrack transfer false false
  else
    PartialJoin_apply_resolved self target backtrack transfer strip_ordering lock.

End PartialJoins.

(** ** A concrete instance

    The interface of the column expressions and of the engines is met
    by the small instance below, on which the examples are run. *)

Module Plain.

(** Modelled from the spec: the column expressions of the [_columns]
    package, "sum types over literals, references to a [ColumnTag],
    named functions". *)
Inductive expression : Type :=
| Literal (value : Z)
| Reference (tag : ColumnTag)
| Function (name : string) (lhs rhs : expression).

(** Modelled from the spec: the predicates of the [_columns] package,
    with the logical combinators. *)
Inductive predicate : Type :=
| PredicateLiteral (value : bool)
| PredicateReference (tag : ColumnTag)
| PredicateFunction (name : string) (lhs rhs : expression)
| LogicalAnd (lhs rhs : predicate)
| LogicalOr (lhs rhs : predicate)
| LogicalNot (operand : predicate).

#[global] Instance expression_eq_dec : EqDecision expression.
Proof. solve_decision. Defined.

Fixpoint expression_columns (e : expression) : Columns :=
  match e with
  | Literal _ => ∅
  | Reference tag => {[tag]}
  | Function _ lhs rhs => expression_columns lhs ∪ expression_columns rhs
  end.

Fixpoint predicate_columns (p : predicate) : Columns :=
  match p with
  | PredicateLiteral _ => ∅
  | PredicateReference tag => {[tag]}
  | PredicateFunction _ lhs rhs => expression_columns lhs ∪ expression_columns rhs
  | LogicalAnd lhs rhs | LogicalOr lhs rhs =>
      predicate_columns lhs ∪ predicate_columns rhs
  | LogicalNot operand => predicate_columns operand
  end.

(** Modelled from the spec: [as_trivial] returns [True], [False] or
    "non-trivial". *)
Fixpoint trivial (p : predicate) : option bool :=
  match p with
  | PredicateLiteral value => Some value
  | LogicalAnd lhs rhs =>
      match trivial lhs, trivial rhs with
      | Some false, _ | _, Some false => Some false
      | Some true, Some true => Some true
      | _, _ => None
      end
  | _ => None
  end.

(** Modelled from the spec: the operands of nested conjunctions, without
    the literal [True] ones; [None] when one of them is a literal
    [False]. *)
Fixpoint flatten (p : predicate) : option (list predicate) :=
  match p with
  | PredicateLiteral true => Some []
  | PredicateLiteral false => None
  | LogicalAnd lhs rhs =>
      match flatten lhs, flatten rhs with
      | Some l, Some r => Some (l ++ r)
      | _, _ => None
      end
  | _ => Some [p]
  end.

Fixpoint conjunction (operands : list predicate) : predicate :=
  match operands with
  | [] => PredicateLiteral true
  | [p] => p
  | p :: operands => LogicalAnd p (conjunction operands)
  end.

#[global] Instance columns_model : ColumnModel := {|
  ColumnExpression := expression;
  Predicate := predicate;
  expression_columns_required := expression_columns;
  expression_is_supported_by := fun _ _ => true;
  predicate_columns_required := predicate_columns;
  predicate_is_supported_by := fun _ _ => true;
  as_trivial := trivial;
  logical_and := conjunction;
  flatten_logical_and := flatten
|}.

(** Modelled from the spec: the order policy of an in-memory engine,
    which keeps rows in sequence except across a sort, a join or a
    transfer into a SQL engine. *)
Definition memory_preserves_order (self : Engine) (operation : Operation) : bool :=
  match operation with
  | Unary (Sort _) => false
  | Binary (Join _ _ _) => false
  | Unary (Transfer destination) =>
      match destination with
      | SqlEngine _ => false
      | ExternalEngine _ => true
      end
  | _ => true
  end.

(** Modelled from the spec: a relation whose root is a sort is ordered
    ("[sort[a](x)] followed by [σ[p]] ... raises [RowOrderError]"). *)
Definition sort_rooted (r : Relation) : bool :=
  match r with
  | UnaryOperationRelation (Sort _) _ _ _ => true
  | _ => false
  end.

(** Modelled from the spec: "with [strip_ordering=true], the [Sort] is
    removed". *)
Fixpoint without_sorts (r : Relation) : Relation :=
  match r with
  | UnaryOperationRelation (Sort _) target _ _ => without_sorts target
  | _ => r
  end.

#[global] Instance engine_model : EngineModel := {|
  external_preserves_order := memory_preserves_order;
  is_ordered := sort_rooted;
  without_ordering := without_sorts;
  get_relation_name := fun _ prefix => prefix
|}.

(** *** Example relations *)

Definition a : ColumnTag := mkColumnTag "a" true.
Definition b : ColumnTag := mkColumnTag "b" true.
Definition c : ColumnTag := mkColumnTag "c" false.

Definition sql : Engine := SqlEngine 0.
Definition memory : Engine := ExternalEngine 1.
Definition other_memory : Engine := ExternalEngine 2.

Definition always : predicate := PredicateLiteral true.

(** Leaves with columns [{a}], [{b}] and [{a, b}]. *)
Definition leaf_a (e : Engine) : Relation := LeafRelation e "A" {[a]} 2 (Some 5).
Definition leaf_b (e : Engine) : Relation := LeafRelation e "B" {[b]} 1 (Some 3).
Definition leaf_ab (e : Engine) : Relation :=
  LeafRelation e "AB" ({[a]} ∪ {[b]}) 4 (Some 4).

(** A leaf that is known to have no rows. *)
Definition doomed (e : Engine) : Relation := LeafRelation e "doomed" {[a]} 0 (Some 0).

(** A leaf with no upper bound on its rows. *)
Definition unbounded (e : Engine) : Relation := LeafRelation e "big" {[a]} 0 None.

(** [leaf_a] and [leaf_b], held by [memory], transferred to
    [other_memory] and joined there. *)
Definition transferred_a : Relation :=
  UnaryOperationRelation (Transfer other_memory) (leaf_a memory) {[a]} false.

Definition transferred_b : Relation :=
  UnaryOperationRelation (Transfer other_memory) (leaf_b memory) {[b]} false.

Definition joined : Relation :=
  BinaryOperationRelation (Join always ∅ (Some ∅)) transferred_a transferred_b
    ({[a]} ∪ {[b]}) false.

(** A branch of [joined] with the deduplication on [key] pushed below
    its transfer. *)
Definition pushed_below_transfer (key : list ColumnTag) (leaf : Relation) : Relation :=
  UnaryOperationRelation (Transfer other_memory)
    (UnaryOperationRelation (Deduplication (Some key)) leaf (columns leaf) false)
    (columns leaf) false.

(** [leaf_ab] sorted by [a] in the SQL engine. *)
Definition by_a : list SortTerm := [mkSortTerm (Reference a) true].

Definition sorted_ab : Relation :=
  UnaryOperationRelation (Sort by_a) (leaf_ab sql) ({[a]} ∪ {[b]}) false.

(** [a + b] *)
Definition a_plus_b : expression := Function "add" (Reference a) (Reference b).

(** [+[c=a+b]] over [leaf_ab]. *)
Definition with_c : Relation :=
  UnaryOperation_apply (Calculation c a_plus_b) (leaf_ab memory) false.

(** [σ[a]] over [leaf_ab]. *)
Definition where_a : Relation :=
  UnaryOperationRelation (Selection (PredicateReference a)) (leaf_ab memory)
    ({[a]} ∪ {[b]}) false.

End Plain.

(** ** Well-formed trees *)

Section WellFormed.
Context `{ColumnModel}.

(** The stored [columns] of every operation relation are what
    [applied_columns] gives on its target(s), as [UnaryOperation.apply]
    and [BinaryOperation.apply] store them. *)
Fixpoint consistent (r : Relation) : Prop :=
  match r with
  | LeafRelation _ _ _ _ _ => True
  | UnaryOperationRelation op target cols _ =>
      cols = applied_columns op target /\ consistent target
  | BinaryOperationRelation op lhs rhs cols _ =>
      cols = binary_applied_columns op lhs rhs
      /\ consistent lhs /\ consistent rhs
  end.

(** Whether [operation.apply] merges with the root of [target] rather
    than building a node on it: a projection folds into a projection
    and absorbs a calculation whose column it drops, a selection, a
    slice and a sort merge with one of their kind. *)
Definition merges (operation : UnaryOperation) (target : Relation) : bool :=
  match operation, target with
  | Projection _, UnaryOperationRelation (Projection _) _ _ _ => true
  | Projection cols, UnaryOperationRelation (Calculation tag _) _ _ _ =>
      bool_decide (tag ∉ cols)
  | Selection _, UnaryOperationRelation (Selection _) _ _ _ => true
  | Slice _ _, UnaryOperationRelation (Slice _ _) _ _ _ => true
  | Sort _, UnaryOperationRelation (Sort _) _ _ _ => true
  | _, _ => false
  end.

(** No node of the tree holds an operation that merges with its
    target. *)
Fixpoint simplified (r : Relation) : bool :=
  match r with
  | LeafRelation _ _ _ _ _ => true
  | UnaryOperationRelation op target _ _ => negb (merges op target) && simplified target
  | BinaryOperationRelation _ lhs rhs _ _ => simplified lhs && simplified rhs
  end.

(** Whether a join is met on the way down from the root through unary
    operation relations. *)
Fixpoint join_on_spine (r : Relation) : bool :=
  match r with
  | UnaryOperationRelation _ target _ _ => join_on_spine target
  | BinaryOperationRelation (Join _ _ _) _ _ _ _ => true
  | _ => false
  end.

Definition materialized (r : Relation) : bool :=
  match r with
  | LeafRelation _ _ _ _ _ => true
  | UnaryOperationRelation (Materialization _) _ _ _ => true
  | _ => false
  end.

(** Whether the tree holds a relation of the engine, itself
    included. *)
Fixpoint engine_occurs (e : Engine) (r : Relation) : bool :=
  bool_decide (engine r = e)
  || match r with
     | LeafRelation _ _ _ _ _ => false
     | UnaryOperationRelation _ target _ _ => engine_occurs e target
     | BinaryOperationRelation _ lhs rhs _ _ =>
         engine_occurs e lhs || engine_occurs e rhs
     end.

(** Trees whose leaves have their row bounds in order, with no
    deduplication of a relation known to be empty and no slice that
    stops before it starts. *)
Fixpoint regular (r : Relation) : Prop :=
  match r with
  | LeafRelation _ _ _ rows_min rows_max =>
      0 <= rows_min /\ forall m, rows_max = Some m -> rows_min <= m
  | UnaryOperationRelation op target _ _ =>
      regular target
      /\ match op with
         | Deduplication _ => max_rows target ≠ Some 0
         | Slice start (Some stop) => start <= stop
         | _ => True
         end
  | BinaryOperationRelation _ lhs rhs _ _ => regular lhs /\ regular rhs
  end.

(** What a unary [apply] with default arguments owes its caller: a
    well-formed result with the columns, the engine and the upper row
    bound that the operation declares for the target. *)
Definition as_declared (operation : UnaryOperation) (target result : Relation)
    : Prop :=
  consistent result
  /\ columns result = applied_columns operation target
  /\ engine result = applied_engine operation target
  /\ max_rows result = max_rows target.

End WellFormed.

(** *** More example relations *)

Module PlainTrees.
Import Plain.

(** [σ[a ∧ b]] over [leaf_ab], the merge of [σ[b]] into [where_a]. *)
Definition where_a_and_b : Relation :=
  UnaryOperationRelation
    (Selection (LogicalAnd (PredicateReference a) (PredicateReference b)))
    (leaf_ab memory) ({[a]} ∪ {[b]}) false.

(** [transferred_a] with an operation pushed below its transfer. *)
Definition below_transfer (operation : UnaryOperation) (cols : Columns) : Relation :=
  UnaryOperationRelation (Transfer other_memory)
    (UnaryOperationRelation operation (leaf_a memory) cols false) cols false.

(** [σ[a]] over [transferred_a]. *)
Definition selected_after_transfer : Relation :=
  UnaryOperationRelation (Selection (PredicateReference a)) transferred_a {[a]} false.

(** [leaf_a] followed by [doomed]. *)
Definition chained : Relation :=
  BinaryOperationRelation Chain (leaf_a memory) (doomed memory) {[a]} false.

(** The second and third rows of [leaf_ab], without duplicates. *)
Definition deduplicated_slice : Relation :=
  UnaryOperationRelation (Deduplication (Some [a]))
    (UnaryOperationRelation (Slice 1 (Some 3)) (leaf_ab memory) ({[a]} ∪ {[b]}) false)
    ({[a]} ∪ {[b]}) false.

(** [where_a], materialized under the name the engine makes. *)
Definition materialized_where_a : Relation :=
  UnaryOperationRelation (Materialization (Some "materialization")) where_a
    ({[a]} ∪ {[b]}) false.

(** [leaf_a] joined to [leaf_b] in [memory], below the transfer of
    [transferred_a]. *)
Definition joined_below_transfer : Relation :=
  UnaryOperationRelation (Transfer other_memory)
    (BinaryOperationRelation (Join always ∅ (Some ∅))
       (leaf_a memory) (leaf_b memory) ({[a]} ∪ {[b]}) false)
    ({[a]} ∪ {[b]}) false.

End PlainTrees.

(** * Properties *)

Section Properties.
Context `{EngineModel}.

(** ** Row bounds *)






Lemma Slice_apply_max_rows (start : Z) (stop : option Z) (target : Relation)
    (lock : bool) :
  max_rows (Slice_apply start stop target lock) = max_rows target.
Proof.
  revert start stop.
  induction target as [| op target IH cols locked | op lhs IHl rhs IHr cols locked];
    intros start stop; simpl;
    destruct ((start =? 0) && is_none stop); try reflexivity.
  destruct op; try reflexivity.
  rewrite IH. reflexivity.
Qed.

(** C9: a slice never tightens the upper row bound.  The relation that
    [Slice.apply] returns has the [max_rows] of its target, whatever the
    [stop] of the slice; [applied_max_rows] is [target.max_rows] and
    only [applied_min_rows] looks at the bounds, giving
    [min(stop - start, target.min_rows)]; a leaf with no upper bound
    sliced to its first [k] rows still has [max_rows = None]. *)
Theorem slice_does_not_tighten_max_rows :
  (forall (start : Z) (stop : option Z) (target : Relation) (lock : bool),
      max_rows (Slice_apply start stop target lock) = max_rows target
      /\ applied_max_rows (Slice start stop) target = max_rows target
      /\ max_rows (UnaryOperation_apply (Slice start stop) target lock)
         = max_rows target)
  /\ (forall (start stop : Z) (target : Relation) (lock : bool),
         applied_min_rows (Slice start (Some stop)) target
         = Z.min (stop - start) (min_rows target)
         /\ min_rows (UnaryOperation_apply (Slice start (Some stop)) target lock)
            = Z.min (stop - start) (min_rows target))
  /\ (forall (start : Z) (target : Relation),
         applied_min_rows (Slice start None) target = min_rows target)
  /\ (forall (e : Engine) (name : string) (cols : Columns) (rows k : Z)
             (lock : bool),
         max_rows (Slice_apply 0 (Some k) (LeafRelation e name cols rows None) lock)
         = None).
Proof.
  split; [| split; [| split]].
  - intros start stop target lock. split; [| split].
    + apply Slice_apply_max_rows.
    + reflexivity.
    + reflexivity.
  - intros start stop target lock. split; reflexivity.
  - intros start target. reflexivity.
  - intros e name cols rows k lock. rewrite Slice_apply_max_rows. reflexivity.
Qed.

(** [Deduplication.applied_min_rows] is the constant 1, and the upper
    bound is the one of the target. *)
Lemma Deduplication_node_rows (unique_key : option (list ColumnTag))
    (target : Relation) (lock : bool) :
  min_rows (UnaryOperation_apply (Deduplication unique_key) target lock) = 1
  /\ max_rows (UnaryOperation_apply (Deduplication unique_key) target lock)
     = max_rows target.
Proof. split; reflexivity. Qed.

(** The rule of the row filters, which are not count-invariant either,
    keeps a lower bound of 0. *)
Lemma RowFilter_keeps_zero (op : UnaryOperation) :
  RowFilter_applied_min_rows op 0 = 0.
Proof. reflexivity. Qed.

(** ** The order policy of the SQL engine *)

Lemma preserves_order_delegated_transfer (destination : Engine) :
  preserves_order_delegated destination (Unary (Transfer destination))
  = preserves_order destination (Unary (Transfer destination)).
Proof.
  destruct destination as [i | i]; simpl; [| reflexivity].
  rewrite bool_decide_eq_true_2; reflexivity.
Qed.

(** C7: the order policy of the SQL engine.  [preserves_order] is
    [True] for every [Slice] and [Deduplication]; for a [Transfer] it is
    [False] when the destination is the engine itself and
    [destination.preserves_order(operation)] otherwise; it is [False]
    for every other operation. *)
Theorem sql_engine_preserves_order (ident : nat) (operation : Operation) :
  preserves_order (SqlEngine ident) operation
  = match operation with
    | Unary (Slice _ _) => true
    | Unary (Deduplication _) => true
    | Unary (Transfer destination) =>
        if bool_decide (destination = SqlEngine ident) then false
        else preserves_order destination operation
    | _ => false
    end.
Proof.
  destruct operation as [op | op]; [destruct op |]; try reflexivity.
  simpl. case_bool_decide; [reflexivity |].
  apply preserves_order_delegated_transfer.
Qed.

(** ** Back-to-back slices *)


(** ** Selections *)

Lemma order_guard_keeps (operation : Operation) (target result : Relation) :
  order_guard operation target false = Ok result -> result = target.
Proof.
  unfold order_guard, expect_unordered.
  destruct (preserves_order _ _); [congruence |].
  destruct (is_ordered target); congruence.
Qed.

Lemma order_guard_default (operation : Operation) (target : Relation) :
  order_guard operation target false = Ok target
  \/ order_guard operation target false = Raise RowOrderError.
Proof.
  unfold order_guard, expect_unordered.
  destruct (preserves_order _ _); [left; reflexivity |].
  destruct (is_ordered target); [right | left]; reflexivity.
Qed.

Lemma Selection_apply_default_unfold (predicate : Predicate) (target : Relation) :
  Selection_apply_default predicate target
  = if bool_decide (as_trivial predicate = Some true) then Ok target
    else if negb (bool_decide (predicate_columns_required predicate ⊆ columns target))
    then Raise ColumnError
    else
      match order_guard (Unary (Selection predicate)) target false with
      | Raise e => Raise e
      | Ok _ =>
          if negb (predicate_is_supported_by predicate (engine target))
          then Raise EngineError
          else
            match target with
            | UnaryOperationRelation (Selection other_predicate) nested_target _ _ =>
                Selection_apply_default
                  (Selection_post_init (logical_and [other_predicate; predicate]))
                  nested_target
            | _ => Ok (UnaryOperation_apply (Selection predicate) target false)
            end
      end.
Proof. destruct target; reflexivity. Qed.

Lemma Selection_apply_defaults (predicate : Predicate) (target : Relation) :
  Selection_apply_here predicate target false false
  = Selection_apply_default predicate target.
Proof.
  rewrite Selection_apply_default_unfold. unfold Selection_apply_here.
  destruct (order_guard_default (Unary (Selection predicate)) target) as [-> | ->];
    reflexivity.
Qed.

Lemma reach_no_preferred_engine
    (insert_recursive : Relation -> Engine -> Result (option Relation))
    (target : Relation) (backtrack transfer require_preferred_engine : bool) :
  reach_preferred_engine insert_recursive target None backtrack transfer
    require_preferred_engine
  = Ok (GoOn target).
Proof. reflexivity. Qed.





(** ** Projections *)

Lemma Projection_apply_default_unfold (cols : Columns) (target : Relation) :
  Projection_apply_default cols target
  = if bool_decide (cols = columns target) then Ok target
    else
      match order_guard (Unary (Projection cols)) target false with
      | Raise e => Raise e
      | Ok _ =>
          if negb (bool_decide (cols ⊆ columns target)) then Raise ColumnError
          else
            match target with
            | UnaryOperationRelation (Projection _) nested_target _ _ =>
                Projection_apply_default cols nested_target
            | UnaryOperationRelation (Calculation tag _) nested_target _ _ =>
                if bool_decide (tag ∉ cols)
                then Projection_apply_default cols nested_target
                else Ok (UnaryOperation_apply (Projection cols) target false)
            | _ => Ok (UnaryOperation_apply (Projection cols) target false)
            end
      end.
Proof. destruct target; reflexivity. Qed.

Lemma Projection_apply_defaults (cols : Columns) (target : Relation) :
  Projection_apply_here cols target false false
  = Projection_apply_default cols target.
Proof.
  rewrite Projection_apply_default_unfold. unfold Projection_apply_here.
  destruct (order_guard_default (Unary (Projection cols)) target) as [-> | ->];
    reflexivity.
Qed.



(** ** Calculations *)

Lemma Calculation_apply_unpreferred (tag : ColumnTag)
    (expression : ColumnExpression) (target : Relation)
    (backtrack transfer require_preferred_engine lock strip_ordering : bool) :
  Calculation_apply tag expression target None backtrack transfer
    require_preferred_engine lock strip_ordering
  = Calculation_apply_here tag expression target lock strip_ordering.
Proof.
  unfold Calculation_apply, Calculation_apply_here.
  destruct (order_guard _ _ _) as [target' |]; [| reflexivity]. simpl.
  destruct (Calculation_check_columns _ _ _); reflexivity.
Qed.

(** C8 (amended): for [Calculation.apply] with no preferred engine, once
    the order guard has let the target through unchanged,
    [ColumnError] is raised if and only if the expression requires a
    column that the target lacks or the tag is already among the columns
    of the target; when neither holds and the engine of the target
    supports the expression, [apply] returns the new node, whose columns
    are those of the target plus the tag. *)
Theorem calculation_apply_column_errors (tag : ColumnTag)
    (expression : ColumnExpression) (target : Relation)
    (backtrack transfer require_preferred_engine lock strip_ordering : bool)
    (Hguard : order_guard (Unary (Calculation tag expression)) target strip_ordering
              = Ok target) :
  (Calculation_apply tag expression target None backtrack transfer
     require_preferred_engine lock strip_ordering
   = Raise ColumnError
   <-> (~ (expression_columns_required expression ⊆ columns target)
        \/ tag ∈ columns target))
  /\ (expression_columns_required expression ⊆ columns target ->
      tag ∉ columns target ->
      expression_is_supported_by expression (engine target) = true ->
      Calculation_apply tag expression target None backtrack transfer
        require_preferred_engine lock strip_ordering
      = Ok (UnaryOperation_apply (Calculation tag expression) target lock)
      /\ columns (UnaryOperation_apply (Calculation tag expression) target lock)
         = columns target ∪ {[tag]}).
Proof.
  rewrite Calculation_apply_unpreferred.
  unfold Calculation_apply_here, Calculation_check_columns, Calculation_finish.
  rewrite Hguard. simpl.
  split.
  - repeat case_bool_decide; simpl;
      destruct (expression_is_supported_by expression (engine target)); simpl;
      split; intros Hx; try discriminate Hx; try reflexivity; try tauto.
  - intros Hsub Htag Hsupported.
    rewrite bool_decide_eq_true_2 by exact Hsub.
    rewrite bool_decide_eq_false_2 by exact Htag.
    simpl. rewrite Hsupported. split; reflexivity.
Qed.

(** ** No call reaches the [elif] branch of [_applied_unique_key] *)

Lemma bound_ok {A : Type} (x : A) : bound (Ok x).
Proof. discriminate. Qed.

Lemma bound_bind {A B : Type} (m : Result A) (f : A -> Result B) :
  bound m -> (forall x, bound (f x)) -> bound (m ≫= f).
Proof.
  intros Hm Hf. destruct m as [x | e]; [apply Hf |].
  intros [= ->]. apply Hm. reflexivity.
Qed.

Create HintDb bound.

Ltac bound_step :=
  match goal with
  | |- bound (Ok _) => apply bound_ok
  | |- bound (Raise _) => discriminate
  | |- bound (_ ≫= _) => apply bound_bind; [| intros ?]
  | |- bound (if ?c then _ else _) => destruct c
  | |- bound (let _ := _ in _) => cbv zeta
  | |- bound (match ?x with _ => _ end) => destruct x
  | |- _ => solve [auto with bound]
  end.

Ltac bound_guard :=
  match goal with
  | |- context [order_guard ?o ?t false] =>
      let E := fresh "E" in
      pose proof (order_guard_default o t) as [E | E]; rewrite E
  end.

Ltac bound_solve := repeat bound_step.

Lemma expect_unordered_bound (self : Relation) (strip_ordering : bool) :
  bound (expect_unordered self strip_ordering).
Proof. unfold expect_unordered. bound_solve. Qed.

#[local] Hint Resolve expect_unordered_bound : bound.

Lemma order_guard_bound (operation : Operation) (target : Relation)
    (strip_ordering : bool) :
  bound (order_guard operation target strip_ordering).
Proof. unfold order_guard. bound_solve. Qed.

#[local] Hint Resolve order_guard_bound : bound.

Lemma Transfer_apply_bound (destination : Engine) (target : Relation)
    (lock strip_ordering : bool) :
  bound (Transfer_apply destination target lock strip_ordering).
Proof. unfold Transfer_apply. bound_solve. Qed.

Lemma Materialization_apply_bound (name : option string) (target : Relation)
    (name_prefix : string) (lock strip_ordering : bool) :
  bound (Materialization_apply name target name_prefix lock strip_ordering).
Proof. unfold Materialization_apply. bound_solve. Qed.

Lemma Calculation_apply_here_bound (tag : ColumnTag)
    (expression : ColumnExpression) (target : Relation)
    (lock strip_ordering : bool) :
  bound (Calculation_apply_here tag expression target lock strip_ordering).
Proof.
  unfold Calculation_apply_here, Calculation_check_columns, Calculation_finish.
  bound_solve.
Qed.

Lemma Selection_apply_default_bound (target : Relation) :
  forall predicate : Predicate, bound (Selection_apply_default predicate target).
Proof.
  induction target as [| op target IH cols locked | op lhs IHl rhs IHr cols locked];
    intros predicate; rewrite Selection_apply_default_unfold; bound_guard;
    bound_solve.
Qed.

#[local] Hint Resolve Selection_apply_default_bound : bound.

Lemma Selection_finish_bound (predicate : Predicate) (target : Relation)
    (lock : bool) :
  bound (Selection_finish predicate target lock).
Proof. unfold Selection_finish. bound_solve. Qed.

#[local] Hint Resolve Selection_finish_bound : bound.

Lemma Selection_apply_here_bound (predicate : Predicate) (target : Relation)
    (lock strip_ordering : bool) :
  bound (Selection_apply_here predicate target lock strip_ordering).
Proof. unfold Selection_apply_here. bound_solve. Qed.

Lemma Projection_apply_default_bound (target : Relation) :
  forall cols : Columns, bound (Projection_apply_default cols target).
Proof.
  induction target as [| op target IH tcols locked | op lhs IHl rhs IHr tcols locked];
    intros cols; rewrite Projection_apply_default_unfold; bound_guard;
    bound_solve.
Qed.

#[local] Hint Resolve Projection_apply_default_bound : bound.

Lemma Projection_apply_here_bound (cols : Columns) (target : Relation)
    (lock strip_ordering : bool) :
  bound (Projection_apply_here cols target lock strip_ordering).
Proof. unfold Projection_apply_here. bound_solve. Qed.

Lemma check_sort_terms_bound (terms : list SortTerm) (target : Relation) :
  bound (check_sort_terms terms target).
Proof. induction terms as [| term terms IH]; simpl; bound_solve. Qed.

#[local] Hint Resolve check_sort_terms_bound : bound.

Lemma Sort_apply_here_bound (target : Relation) :
  forall (terms : list SortTerm) (lock : bool),
    bound (Sort_apply_here terms target lock).
Proof.
  induction target as [| op target IH cols locked | op lhs IHl rhs IHr cols locked];
    intros terms lock; destruct terms as [| term terms]; simpl;
    try apply bound_ok; (apply bound_bind; [auto with bound | intros _]);
    bound_solve.
Qed.

Lemma Deduplication_apply_here_bound (unique_key : option (list ColumnTag))
    (target : Relation) (lock strip_ordering : bool) :
  bound (Deduplication_apply_here unique_key target lock strip_ordering).
Proof.
  unfold Deduplication_apply_here, Deduplication_apply_resolved,
    Deduplication_applied_unique_key.
  bound_solve.
Qed.

#[local] Hint Resolve Calculation_apply_here_bound Transfer_apply_bound
  Materialization_apply_bound Selection_apply_here_bound
  Projection_apply_here_bound Sort_apply_here_bound
  Deduplication_apply_here_bound : bound.

Lemma apply_operation_bound (operation : UnaryOperation) (target : Relation) :
  bound (apply_operation operation target).
Proof. destruct operation; simpl; try apply bound_ok; auto with bound. Qed.

Lemma Join_apply_bound (predicate : Predicate) (min_columns : Columns)
    (max_columns : option Columns) (lhs rhs : Relation)
    (lock strip_ordering : bool) :
  bound (Join_apply predicate min_columns max_columns lhs rhs lock strip_ordering).
Proof.
  unfold Join_apply, applied_common_columns, common_columns. bound_solve.
Qed.

Lemma Chain_apply_bound (lhs rhs : Relation) (lock strip_ordering : bool) :
  bound (Chain_apply lhs rhs lock strip_ordering).
Proof. unfold Chain_apply. bound_solve. Qed.

#[local] Hint Resolve apply_operation_bound Join_apply_bound Chain_apply_bound
  : bound.

Lemma apply_binary_operation_bound (operation : BinaryOperation)
    (lhs rhs : Relation) :
  bound (apply_binary_operation operation lhs rhs).
Proof. destruct operation; simpl; auto with bound. Qed.

Lemma reapply_bound (operation : UnaryOperation) (new_target : option Relation) :
  bound (reapply operation new_target).
Proof. unfold reapply. bound_solve. Qed.

#[local] Hint Resolve apply_binary_operation_bound reapply_bound : bound.

Lemma Deduplication_insert_recursive_bound (target : Relation) :
  forall (unique_key : option (list ColumnTag)) (preferred_engine : Engine)
         (lock : bool),
    bound (Deduplication_insert_recursive unique_key target preferred_engine lock).
Proof.
  induction target as [| op target IH cols locked | op lhs IHl rhs IHr cols locked];
    intros unique_key preferred_engine lock; simpl.
  - apply bound_ok.
  - bound_solve.
  - destruct locked; [apply bound_ok |].
    destruct op; [| apply bound_ok].
    apply bound_bind; [apply IHl | intros new_join_lhs].
    apply bound_bind; [apply IHr | intros new_join_rhs].
    bound_solve.
Qed.

Lemma reach_preferred_engine_bound
    (insert_recursive : Relation -> Engine -> Result (option Relation))
    (target : Relation) (preferred_engine : option Engine)
    (backtrack transfer require_preferred_engine : bool) :
  (forall t e, bound (insert_recursive t e)) ->
  bound (reach_preferred_engine insert_recursive target preferred_engine
           backtrack transfer require_preferred_engine).
Proof. intros Hinsert. unfold reach_preferred_engine. bound_solve. Qed.

Lemma Deduplication_apply_with_key_bound (key : list ColumnTag) (target : Relation)
    (preferred_engine : option Engine)
    (backtrack transfer require_preferred_engine lock strip_ordering : bool) :
  bound (Deduplication_apply_with_key key target preferred_engine backtrack
           transfer require_preferred_engine lock strip_ordering).
Proof.
  unfold Deduplication_apply_with_key.
  apply bound_bind; [auto with bound | intros target'].
  apply bound_bind; [| intros []; bound_solve].
  apply reach_preferred_engine_bound. intros t e.
  apply Deduplication_insert_recursive_bound.
Qed.

Lemma Deduplication_apply_unpreferred (unique_key : option (list ColumnTag))
    (target : Relation)
    (backtrack transfer require_preferred_engine lock strip_ordering : bool) :
  Deduplication_apply unique_key target None backtrack transfer
    require_preferred_engine lock strip_ordering
  = Deduplication_apply_here unique_key target lock strip_ordering.
Proof.
  unfold Deduplication_apply, Deduplication_apply_here,
    Deduplication_apply_with_key, Deduplication_apply_resolved.
  unfold mbind, Result_bind.
  destruct unique_key as [key |].
  - destruct (order_guard _ _ _); reflexivity.
  - destruct (order_guard _ _ _) as [target' |]; [| reflexivity].
    destruct (Deduplication_applied_unique_key None target') as [key |];
      [| reflexivity].
    destruct (order_guard (Unary (Deduplication (Some key))) target' strip_ordering);
      reflexivity.
Qed.

(** C10: a [Deduplication] built with a [unique_key] never has the key
    checked against the columns of its target.  With no preferred
    engine, [apply] is the order guard followed by the construction of
    the node, for any key, so it raises no [ColumnError]; and under any
    arguments [apply] never reaches the subset test of
    [_applied_unique_key], which it calls only when [unique_key] is
    [None]. *)
Theorem deduplication_key_is_never_checked (key : list ColumnTag)
    (target : Relation)
    (backtrack transfer require_preferred_engine lock strip_ordering : bool) :
  Deduplication_apply (Some key) target None backtrack transfer
    require_preferred_engine lock strip_ordering
  = (target ← order_guard (Unary (Deduplication (Some key))) target strip_ordering;
     Ok (UnaryOperationRelation (Deduplication (Some key)) target
           (columns target) false))
  /\ Deduplication_apply (Some key) target None backtrack transfer
       require_preferred_engine lock strip_ordering
     ≠ Raise ColumnError
  /\ (forall preferred_engine : option Engine,
         Deduplication_apply (Some key) target preferred_engine backtrack
           transfer require_preferred_engine lock strip_ordering
         ≠ Raise UnboundLocalError)
  /\ (forall (operation : UnaryOperation) (t : Relation),
         apply_operation operation t ≠ Raise UnboundLocalError).
Proof.
  rewrite Deduplication_apply_unpreferred.
  split; [reflexivity |]. split; [| split].
  - unfold Deduplication_apply_here, Deduplication_apply_resolved, order_guard,
      expect_unordered.
    destruct (preserves_order _ _); [discriminate |].
    destruct strip_ordering; [discriminate |].
    destruct (is_ordered target); discriminate.
  - intros preferred_engine. apply Deduplication_apply_with_key_bound.
  - apply apply_operation_bound.
Qed.

End Properties.

(** * The properties on concrete relations *)

Import Plain.

Ltac by_computation := apply (bool_decide_unpack _); vm_compute; exact I.

(** The example relations are what [apply] builds. *)
Lemma examples_are_built_by_apply :
  apply_operation (Transfer other_memory) (leaf_a memory) = Ok transferred_a
  /\ apply_operation (Transfer other_memory) (leaf_b memory) = Ok transferred_b
  /\ apply_binary_operation (Join always ∅ None) transferred_a transferred_b
     = Ok joined
  /\ apply_operation (Sort by_a) (leaf_ab sql) = Ok sorted_ab
  /\ apply_operation (Calculation c a_plus_b) (leaf_ab memory) = Ok with_c
  /\ apply_operation (Selection (PredicateReference a)) (leaf_ab memory)
     = Ok where_a.
Proof. repeat split; reflexivity. Qed.

(** ** Join *)

(** C1: on a resolved join whose common column [a] is missing from
    [rhs], [Join.apply] raises nothing and builds the join: the test
    that was meant for [rhs.columns] reads [lhs.columns] again. *)
Theorem join_apply_does_not_check_rhs :
  ~ (({[a]} : Columns) ⊆ columns (leaf_b memory))
  /\ common_columns {[a]} (Some {[a]}) = Ok {[a]}
  /\ Join_apply always {[a]} (Some {[a]}) (leaf_a memory) (leaf_b memory) false false
     = Ok (BinaryOperationRelation (Join always {[a]} (Some {[a]}))
             (leaf_a memory) (leaf_b memory) ({[a]} ∪ {[b]}) false).
Proof.
  split; [by_computation |]. split; reflexivity.
Qed.

(** ** Deduplication *)

(** C2: pushing a deduplication through a join towards the preferred
    engine rewrites both branches and then joins the right-hand one
    with itself.  On [joined], whose branches have the columns [{a}] and
    [{b}], the result has the columns [{b}], at least 0 and at most 9
    rows; the deduplication applied without a preferred engine has the
    columns [{a, b}], at least 1 and at most 15 rows. *)
Theorem deduplication_pushdown_joins_rhs_with_itself :
  let key := [a; b] in
  let pushed := pushed_below_transfer key (leaf_b memory) in
  let backtracked :=
    BinaryOperationRelation (Join always ∅ (Some ∅)) pushed pushed
      ({[b]} ∪ {[b]}) false in
  let direct :=
    UnaryOperationRelation (Deduplication (Some key)) joined ({[a]} ∪ {[b]}) false in
  Deduplication_applied_unique_key None joined = Ok key
  /\ Deduplication_insert_recursive (Some key) transferred_a memory false
     = Ok (Some (pushed_below_transfer key (leaf_a memory)))
  /\ Deduplication_insert_recursive (Some key) transferred_b memory false
     = Ok (Some pushed)
  /\ Deduplication_apply None joined (Some memory) true false false false false
     = Ok backtracked
  /\ Deduplication_apply None joined None true false false false false
     = Ok direct
  /\ (a ∈ columns direct) /\ (a ∉ columns backtracked)
  /\ columns backtracked ≠ columns direct
  /\ (min_rows backtracked = 0 /\ min_rows direct = 1)
  /\ (max_rows backtracked = Some 9 /\ max_rows direct = Some 15).
Proof.
  intros key pushed backtracked direct.
  assert (a ∈ columns direct) as Hin by by_computation.
  assert (a ∉ columns backtracked) as Hout by by_computation.
  repeat split; try reflexivity; try assumption.
  intros Heq. apply Hout. rewrite Heq. exact Hin.
Qed.

(** C3: a deduplication of a relation that has no rows has
    [min_rows = 1] above [max_rows = 0], where the rule of the row
    filters would have kept 0. *)
Theorem deduplication_min_rows_above_max_rows :
  let deduplicated :=
    UnaryOperationRelation (Deduplication (Some [a])) (doomed memory) {[a]} false in
  Deduplication_apply None (doomed memory) None true false false false false
  = Ok deduplicated
  /\ Deduplication_apply (Some [a]) (doomed memory) None true false false false false
     = Ok deduplicated
  /\ min_rows deduplicated = 1
  /\ max_rows deduplicated = Some 0
  /\ ~ (min_rows deduplicated <= 0)
  /\ RowFilter_applied_min_rows (Deduplication (Some [a])) (min_rows (doomed memory)) = 0.
Proof. repeat split; try reflexivity. simpl. lia. Qed.

(** ** Slice *)



(** ** Selection *)




(** ** Projection *)


(** ** Calculation *)

(** C8, as stated, fails on an ordered target in an engine that does not
    preserve order under a calculation: on [sorted_ab] in the SQL
    engine the calculation of the existing column [a] raises
    [RowOrderError] and not [ColumnError], and the calculation of the
    new column [c] from [a + b] raises it too. *)
Lemma calculation_apply_order_guard_comes_first :
  (a ∈ columns sorted_ab
   /\ Calculation_apply a (Reference b) sorted_ab None true false false false false
      = Raise RowOrderError
   /\ ~ (Calculation_apply a (Reference b) sorted_ab None true false false false false
         = Raise ColumnError
         <-> (~ (expression_columns_required (Reference b) ⊆ columns sorted_ab)
              \/ a ∈ columns sorted_ab)))
  /\ (expression_columns_required a_plus_b ⊆ columns sorted_ab
      /\ (c ∉ columns sorted_ab)
      /\ expression_is_supported_by a_plus_b (engine sorted_ab) = true
      /\ Calculation_apply c a_plus_b sorted_ab None true false false false false
         = Raise RowOrderError).
Proof.
  assert (a ∈ columns sorted_ab) as Ha by by_computation.
  split; [split; [exact Ha | split; [reflexivity |]] |].
  - intros [_ Hraise]. specialize (Hraise (or_intror Ha)). discriminate Hraise.
  - split; [by_computation |]. split; [by_computation |]. split; reflexivity.
Qed.

(** On [leaf_ab], the calculation of [c] from [a + b] is a node with the
    columns [{a, b, c}], and the calculation of [a] raises
    [ColumnError]. *)
Lemma calculation_apply_column_errors_witness :
  Calculation_apply c a_plus_b (leaf_ab memory) None true false false false false
  = Ok with_c
  /\ columns with_c = {[a]} ∪ {[b]} ∪ {[c]}
  /\ Calculation_apply a a_plus_b (leaf_ab memory) None true false false false false
     = Raise ColumnError.
Proof.
  pose proof (proj2 (calculation_apply_column_errors c a_plus_b (leaf_ab memory)
                       true false false false false eq_refl)
                ltac:(by_computation) ltac:(by_computation) eq_refl)
    as [Hok Hcolumns].
  pose proof (proj1 (calculation_apply_column_errors a a_plus_b (leaf_ab memory)
                       true false false false false eq_refl))
    as [_ Hraise].
  split; [exact Hok |]. split; [exact Hcolumns |].
  apply Hraise. right. by_computation.
Defined.

(** * Invariants of the trees that [apply] builds *)

Section Invariants.
Context `{EngineModel}.

Lemma node_as_declared (operation : UnaryOperation) (target : Relation)
    (lock : bool) :
  consistent target ->
  as_declared operation target (UnaryOperation_apply operation target lock).
Proof. intros Htarget. repeat split; assumption. Qed.

Lemma bind_Ok {A B : Type} (m : Result A) (f : A -> Result B) (y : B) :
  m ≫= f = Ok y -> exists x, m = Ok x /\ f x = Ok y.
Proof. destruct m as [x | e]; [eauto | discriminate]. Qed.

Lemma guard_Ok (operation : Operation) (target result : Relation) :
  order_guard operation target false = Ok result ->
  result = target /\ order_guard operation target false = Ok target.
Proof.
  intros Hg. pose proof (order_guard_keeps _ _ _ Hg) as ->. auto.
Qed.

Lemma self_as_declared (operation : UnaryOperation) (target : Relation) :
  consistent target ->
  applied_columns operation target = columns target ->
  applied_engine operation target = engine target ->
  as_declared operation target target.
Proof. intros Htarget Hcolumns Hengine. repeat split; auto. Qed.

Ltac declared :=
  first [ apply node_as_declared; assumption
        | apply self_as_declared; [assumption | reflexivity | reflexivity] ].

Lemma Slice_apply_as_declared (target : Relation) :
  forall (start : Z) (stop : option Z) (lock : bool),
    consistent target ->
    as_declared (Slice start stop) target (Slice_apply start stop target lock).
Proof.
  induction target as [| op target IH cols locked | op lhs IHl rhs IHr cols locked];
    intros start stop lock Htarget; simpl;
    destruct ((start =? 0) && is_none stop); try declared.
  destruct op as [| | | | previous_start previous_stop | | | |]; try declared.
  destruct Htarget as [-> Hnested].
  destruct (IH (merged_start previous_start start)
               (merged_stop previous_start previous_stop stop) lock Hnested)
    as (Hr & Hcolumns & Hengine & Hmax).
  repeat split; assumption.
Qed.

Lemma as_declared_transport (operation operation' : UnaryOperation)
    (target target' result : Relation) :
  as_declared operation target result ->
  applied_columns operation target = applied_columns operation' target' ->
  applied_engine operation target = applied_engine operation' target' ->
  max_rows target = max_rows target' ->
  as_declared operation' target' result.
Proof.
  intros (Hr & Hcolumns & Hengine & Hmax) Hc He Hm.
  repeat split; congruence.
Qed.

Lemma Selection_apply_default_as_declared (target : Relation) :
  forall (predicate : Predicate) (result : Relation),
    consistent target ->
    Selection_apply_default predicate target = Ok result ->
    as_declared (Selection predicate) target result.
Proof.
  induction target as [| op target IH cols locked | op lhs IHl rhs IHr cols locked];
    intros predicate result Htarget; rewrite Selection_apply_default_unfold;
    (destruct (bool_decide (as_trivial predicate = Some true));
     [intros [= <-]; declared |]);
    destruct (negb (bool_decide _)); try discriminate;
    destruct (order_guard _ _ _); try discriminate;
    destruct (negb (predicate_is_supported_by _ _)); try discriminate;
    try (intros [= <-]; declared).
  destruct op; try (intros [= <-]; declared).
  intros Hmerged. destruct Htarget as [-> Hnested].
  apply IH in Hmerged; [| exact Hnested].
  apply (as_declared_transport _ _ _ _ _ Hmerged); reflexivity.
Qed.

Lemma Projection_apply_default_as_declared (target : Relation) :
  forall (cols : Columns) (result : Relation),
    consistent target ->
    Projection_apply_default cols target = Ok result ->
    as_declared (Projection cols) target result.
Proof.
  induction target as [| op target IH tcols locked | op lhs IHl rhs IHr tcols locked];
    intros cols result Htarget; rewrite Projection_apply_default_unfold;
    (case_bool_decide as Heq;
     [intros [= <-]; apply self_as_declared; [assumption | exact Heq | reflexivity] |]);
    destruct (order_guard _ _ _); try discriminate;
    destruct (negb (bool_decide _)); try discriminate;
    try (intros [= <-]; declared).
  destruct Htarget as [-> Hnested].
  destruct op; try (intros [= <-]; apply node_as_declared; split; auto).
  - case_bool_decide; [| intros [= <-]; apply node_as_declared; split; auto].
    intros Hfolded. apply IH in Hfolded; [| exact Hnested].
    apply (as_declared_transport _ _ _ _ _ Hfolded); reflexivity.
  - intros Hfolded. apply IH in Hfolded; [| exact Hnested].
    apply (as_declared_transport _ _ _ _ _ Hfolded); reflexivity.
Qed.

Lemma Sort_apply_here_unfold (terms : list SortTerm) (target : Relation)
    (lock : bool) :
  terms ≠ [] ->
  Sort_apply_here terms target lock
  = (_ ← check_sort_terms terms target;
     match target with
     | UnaryOperationRelation (Sort previous_terms) nested_target _ _ =>
         Sort_apply_here (merged_terms terms previous_terms) nested_target lock
     | _ => Ok (UnaryOperation_apply (Sort terms) target lock)
     end).
Proof. destruct terms; [congruence |]. destruct target; reflexivity. Qed.

Lemma Sort_apply_here_as_declared (target : Relation) :
  forall (terms : list SortTerm) (lock : bool) (result : Relation),
    consistent target ->
    Sort_apply_here terms target lock = Ok result ->
    as_declared (Sort terms) target result.
Proof.
  induction target as [| op target IH cols locked | op lhs IHl rhs IHr cols locked];
    intros terms lock result Htarget;
    (destruct (decide (terms = [])) as [-> | Hterms];
     [destruct lock; simpl; intros [= <-]; declared |]);
    rewrite Sort_apply_here_unfold by exact Hterms;
    destruct (check_sort_terms terms _) as [[] |]; simpl; try discriminate;
    try (intros [= <-]; declared).
  destruct op; try (intros [= <-]; declared).
  intros Hmerged. destruct Htarget as [-> Hnested].
  apply IH in Hmerged; [| exact Hnested].
  apply (as_declared_transport _ _ _ _ _ Hmerged); reflexivity.
Qed.

Lemma Calculation_finish_as_declared (tag : ColumnTag)
    (expr : ColumnExpression) (target : Relation) (lock : bool)
    (result : Relation) :
  consistent target ->
  Calculation_finish tag expr target lock = Ok result ->
  as_declared (Calculation tag expr) target result.
Proof.
  intros Htarget Hresult. unfold Calculation_finish in Hresult.
  destruct (negb _) in Hresult; [discriminate |].
  injection Hresult as <-. declared.
Qed.

Lemma Calculation_apply_here_as_declared (tag : ColumnTag)
    (expr : ColumnExpression) (target : Relation) (lock : bool)
    (result : Relation) :
  consistent target ->
  Calculation_apply_here tag expr target lock false = Ok result ->
  as_declared (Calculation tag expr) target result.
Proof.
  intros Htarget Hresult. unfold Calculation_apply_here in Hresult.
  apply bind_Ok in Hresult as (target' & Hg & Hresult).
  apply guard_Ok in Hg as [-> _].
  apply bind_Ok in Hresult as (_ & _ & Hresult).
  exact (Calculation_finish_as_declared _ _ _ _ _ Htarget Hresult).
Qed.

Lemma Selection_finish_as_declared (pred : Predicate) (target : Relation)
    (lock : bool) (result : Relation) :
  consistent target ->
  Selection_finish pred target lock = Ok result ->
  as_declared (Selection pred) target result.
Proof.
  intros Htarget Hresult. unfold Selection_finish in Hresult.
  destruct (negb _) in Hresult; [discriminate |].
  destruct target as [| op target cols locked |];
    try (injection Hresult as <-; declared).
  destruct op; try (injection Hresult as <-; declared).
  destruct Htarget as [-> Hnested].
  apply Selection_apply_default_as_declared in Hresult; [| exact Hnested].
  apply (as_declared_transport _ _ _ _ _ Hresult); reflexivity.
Qed.

Lemma Selection_apply_here_as_declared (pred : Predicate) (target : Relation)
    (lock : bool) (result : Relation) :
  consistent target ->
  Selection_apply_here pred target lock false = Ok result ->
  as_declared (Selection pred) target result.
Proof.
  intros Htarget Hresult. unfold Selection_apply_here in Hresult.
  case_bool_decide as Htrivial; [injection Hresult as <-; declared |].
  destruct (negb _) in Hresult; [discriminate |].
  apply bind_Ok in Hresult as (target' & Hg & Hresult).
  apply guard_Ok in Hg as [-> _].
  exact (Selection_finish_as_declared _ _ _ _ Htarget Hresult).
Qed.

Lemma Projection_apply_here_as_declared (cols : Columns) (target : Relation)
    (lock : bool) (result : Relation) :
  consistent target ->
  Projection_apply_here cols target lock false = Ok result ->
  as_declared (Projection cols) target result.
Proof.
  intros Htarget Hresult. unfold Projection_apply_here in Hresult.
  case_bool_decide as Heq.
  { injection Hresult as <-.
    apply self_as_declared; [assumption | exact Heq | reflexivity]. }
  apply bind_Ok in Hresult as (target' & Hg & Hresult).
  apply guard_Ok in Hg as [-> _].
  destruct (negb _) in Hresult; [discriminate |].
  destruct target as [| op target tcols locked |];
    try (injection Hresult as <-; declared).
  destruct Htarget as [-> Hnested].
  destruct op;
    try (injection Hresult as <-; apply node_as_declared; split; auto).
  - case_bool_decide;
      [| injection Hresult as <-; apply node_as_declared; split; auto].
    apply Projection_apply_default_as_declared in Hresult; [| exact Hnested].
    apply (as_declared_transport _ _ _ _ _ Hresult); reflexivity.
  - apply Projection_apply_default_as_declared in Hresult; [| exact Hnested].
    apply (as_declared_transport _ _ _ _ _ Hresult); reflexivity.
Qed.

Lemma Deduplication_apply_resolved_node (key : list ColumnTag)
    (target : Relation) (lock : bool) (result : Relation) :
  Deduplication_apply_resolved key target lock false = Ok result ->
  result = UnaryOperationRelation (Deduplication (Some key)) target
             (columns target) false.
Proof.
  intros Hresult. unfold Deduplication_apply_resolved in Hresult.
  apply bind_Ok in Hresult as (target' & Hg & Hresult).
  apply guard_Ok in Hg as [-> _].
  injection Hresult as <-. reflexivity.
Qed.

Lemma Deduplication_apply_here_node (unique_key : option (list ColumnTag))
    (target : Relation) (lock : bool) (result : Relation) :
  Deduplication_apply_here unique_key target lock false = Ok result ->
  exists key,
    result = UnaryOperationRelation (Deduplication (Some key)) target
               (columns target) false
    /\ match unique_key with
       | Some given => key = given
       | None => Deduplication_applied_unique_key None target = Ok key
       end.
Proof.
  intros Hresult. unfold Deduplication_apply_here in Hresult.
  destruct unique_key as [key |].
  - exists key. split; [| reflexivity].
    exact (Deduplication_apply_resolved_node _ _ _ _ Hresult).
  - apply bind_Ok in Hresult as (target' & Hg & Hresult).
    apply guard_Ok in Hg as [-> _].
    apply bind_Ok in Hresult as (key & Hkey & Hresult).
    exists key. split; [| exact Hkey].
    exact (Deduplication_apply_resolved_node _ _ _ _ Hresult).
Qed.

Lemma Deduplication_apply_here_as_declared
    (unique_key : option (list ColumnTag)) (target : Relation) (lock : bool)
    (result : Relation) :
  consistent target ->
  Deduplication_apply_here unique_key target lock false = Ok result ->
  as_declared (Deduplication unique_key) target result.
Proof.
  intros Htarget Hresult.
  apply Deduplication_apply_here_node in Hresult as (key & -> & _).
  repeat split; auto.
Qed.

Lemma Transfer_apply_as_declared (destination : Engine) (target : Relation)
    (lock : bool) (result : Relation) :
  consistent target ->
  Transfer_apply destination target lock false = Ok result ->
  as_declared (Transfer destination) target result.
Proof.
  intros Htarget Hresult. unfold Transfer_apply in Hresult.
  case_bool_decide as Hengine.
  - injection Hresult as <-. apply self_as_declared; auto.
  - apply bind_Ok in Hresult as (target' & Hg & Hresult).
    apply guard_Ok in Hg as [-> _].
    injection Hresult as <-. declared.
Qed.

Lemma Materialization_apply_Ok (name : option string) (target : Relation)
    (name_prefix : string) (lock : bool) (result : Relation) :
  Materialization_apply name target name_prefix lock false = Ok result ->
  (materialized target = true /\ result = target)
  \/ (materialized target = false
      /\ result
         = UnaryOperationRelation
             (Materialization
                (Some (default (get_relation_name (engine target) name_prefix)
                         name)))
             target (columns target) lock).
Proof.
  intros Hresult. unfold Materialization_apply in Hresult.
  destruct (materialized target) eqn:Hmaterialized.
  - left. split; [reflexivity |].
    destruct target as [| op target cols locked |]; try discriminate.
    + congruence.
    + destruct op; try discriminate. congruence.
  - right. split; [reflexivity |].
    assert (order_guard (Unary (Materialization name)) target false
            ≫= (fun target' =>
                  Ok (UnaryOperation_apply
                        match name with
                        | Some _ => Materialization name
                        | None =>
                            Materialization
                              (Some (get_relation_name (engine target')
                                       name_prefix))
                        end target' lock))
            = Ok result) as Hbuilt.
    { destruct target as [| op target cols locked |]; try discriminate;
        [destruct op; try discriminate |]; exact Hresult. }
    apply bind_Ok in Hbuilt as (target' & Hg & Hbuilt).
    apply guard_Ok in Hg as [-> _].
    injection Hbuilt as <-. destruct name; reflexivity.
Qed.

Lemma Materialization_apply_as_declared (name : option string)
    (target : Relation) (name_prefix : string) (lock : bool)
    (result : Relation) :
  consistent target ->
  Materialization_apply name target name_prefix lock false = Ok result ->
  as_declared (Materialization name) target result.
Proof.
  intros Htarget Hresult.
  apply Materialization_apply_Ok in Hresult as [[_ ->] | [_ ->]].
  - declared.
  - repeat split; auto.
Qed.

Lemma apply_operation_as_declared (operation : UnaryOperation)
    (target result : Relation) :
  consistent target ->
  apply_operation operation target = Ok result ->
  as_declared operation target result.
Proof.
  intros Htarget Hresult.
  destruct operation
    as [tag expr | unique_key | cols | pred | start stop | terms | name
        | destination |];
    unfold apply_operation in Hresult.
  - exact (Calculation_apply_here_as_declared _ _ _ _ _ Htarget Hresult).
  - exact (Deduplication_apply_here_as_declared _ _ _ _ Htarget Hresult).
  - exact (Projection_apply_here_as_declared _ _ _ _ Htarget Hresult).
  - exact (Selection_apply_here_as_declared _ _ _ _ Htarget Hresult).
  - injection Hresult as <-. apply Slice_apply_as_declared, Htarget.
  - exact (Sort_apply_here_as_declared _ _ _ _ Htarget Hresult).
  - exact (Materialization_apply_as_declared _ _ _ _ _ Htarget Hresult).
  - exact (Transfer_apply_as_declared _ _ _ _ Htarget Hresult).
  - injection Hresult as <-. declared.
Qed.

(** X1: every operation of [_operations/], applied with default arguments
    to a well-formed tree, either raises or returns a well-formed tree
    that has the columns and the engine the operation declares through
    [applied_columns] and [applied_engine], and the [max_rows] of the
    target: this holds through the merging of selections, slices and
    sorts, the folding of projections and the absorption of
    calculations. *)
Theorem apply_returns_what_the_operation_declares (operation : UnaryOperation)
    (target result : Relation)
    (Htarget : consistent target)
    (Hresult : apply_operation operation target = Ok result) :
  consistent result
  /\ columns result = applied_columns operation target
  /\ engine result = applied_engine operation target
  /\ max_rows result = max_rows target.
Proof. exact (apply_operation_as_declared _ _ _ Htarget Hresult). Qed.

(** ** Join and Chain *)

Lemma expect_unordered_keeps (self result : Relation) :
  expect_unordered self false = Ok result -> result = self.
Proof.
  unfold expect_unordered. destruct (is_ordered self); congruence.
Qed.

Lemma join_identity_attributes (r : Relation) :
  is_join_identity r = true ->
  columns r = ∅ /\ min_rows r = 1 /\ max_rows r = Some 1.
Proof.
  unfold is_join_identity. intros Hid.
  apply andb_prop in Hid as [Hid Hmax]. apply andb_prop in Hid as [Hcols Hmin].
  apply bool_decide_eq_true_1 in Hcols, Hmax. apply Z.eqb_eq in Hmin. auto.
Qed.

Lemma join_max_rows_identity_l (predicate : Predicate) (min_columns : Columns)
    (max_columns : option Columns) (m : option Z) :
  binary_max_rows (Join predicate min_columns max_columns) (Some 1) m = m.
Proof.
  destruct m as [m |]; simpl; [| reflexivity].
  case_bool_decide as Hm; [congruence |]. f_equal. lia.
Qed.

Lemma join_max_rows_identity_r (predicate : Predicate) (min_columns : Columns)
    (max_columns : option Columns) (m : option Z) :
  binary_max_rows (Join predicate min_columns max_columns) m (Some 1) = m.
Proof.
  destruct m as [m |]; simpl; [| reflexivity].
  case_bool_decide as Hm; [simpl; congruence |]. simpl. f_equal. lia.
Qed.

Lemma Join_apply_attributes (predicate : Predicate) (min_columns : Columns)
    (max_columns : option Columns) (lhs rhs result : Relation) (lock : bool)
    (Hresult : Join_apply predicate min_columns max_columns lhs rhs lock false
               = Ok result) :
  engine lhs = engine rhs
  /\ (exists common : Columns,
         min_columns ⊆ common /\ common ⊆ columns lhs
         /\ result
            = if is_join_identity lhs then rhs
              else if is_join_identity rhs then lhs
              else BinaryOperationRelation
                     (Join predicate common (Some common)) lhs rhs
                     (columns lhs ∪ columns rhs) lock)
  /\ columns result = columns lhs ∪ columns rhs
  /\ engine result = engine lhs
  /\ max_rows result
     = binary_max_rows (Join predicate min_columns max_columns)
         (max_rows lhs) (max_rows rhs)
  /\ (consistent lhs -> consistent rhs -> consistent result).
Proof.
  unfold Join_apply in Hresult.
  case_bool_decide as Hengine; [discriminate |].
  destruct (negb (predicate_is_supported_by _ _)); [discriminate |].
  destruct (negb (bool_decide _)); [discriminate |].
  apply bind_Ok in Hresult as (operation & Hoperation & Hresult).
  apply bind_Ok in Hresult as (lhs' & Hlhs & Hresult).
  apply expect_unordered_keeps in Hlhs as ->.
  apply bind_Ok in Hresult as (rhs' & Hrhs & Hresult).
  apply expect_unordered_keeps in Hrhs as ->.
  assert (exists common : Columns,
             min_columns ⊆ common /\ common ⊆ columns lhs
             /\ operation = Join predicate common (Some common))
    as (common & Hmin & Hmax & ->).
  { case_bool_decide as Hresolved.
    - apply bind_Ok in Hoperation as (common & Hcommon & Hoperation).
      injection Hoperation as <-. exists common.
      unfold applied_common_columns in Hcommon.
      rewrite bool_decide_eq_true_2 in Hcommon by exact Hresolved.
      case_bool_decide as Hsub; [| discriminate]. simpl in Hcommon.
      injection Hcommon as <-.
      split; [exact Hsub |]. split; [| reflexivity].
      intros tag Htag.
      assert (tag ∈ filter (fun tag => is_key tag = true)
                      (columns lhs ∩ columns rhs)) as Hkey.
      { destruct max_columns; [| exact Htag].
        apply elem_of_intersection in Htag as [Htag _]. exact Htag. }
      apply elem_of_filter in Hkey as [_ Hkey].
      apply elem_of_intersection in Hkey as [Hkey _]. exact Hkey.
    - subst max_columns.
      apply bind_Ok in Hoperation as (common & Hcommon & Hoperation).
      unfold common_columns in Hcommon.
      rewrite bool_decide_eq_true_2 in Hcommon by reflexivity.
      injection Hcommon as <-.
      case_bool_decide as Hsub; [| discriminate]. simpl in Hoperation.
      injection Hoperation as <-. exists min_columns. auto. }
  unfold BinaryOperation_apply, binary_applied_columns in Hresult.
  split; [exact Hengine |].
  split; [exists common; split; [exact Hmin |]; split; [exact Hmax |] |].
  { destruct (is_join_identity lhs); [congruence |].
    destruct (is_join_identity rhs); congruence. }
  destruct (is_join_identity lhs) eqn:Hl.
  { injection Hresult as <-.
    apply join_identity_attributes in Hl as (Hcols & _ & Hm).
    rewrite Hcols, Hm, join_max_rows_identity_l, (left_id_L ∅ (∪)).
    repeat split; auto. }
  destruct (is_join_identity rhs) eqn:Hr.
  { injection Hresult as <-.
    apply join_identity_attributes in Hr as (Hcols & _ & Hm).
    rewrite Hcols, Hm, join_max_rows_identity_r, (right_id_L ∅ (∪)).
    repeat split; auto. }
  injection Hresult as <-. repeat split; auto.
Qed.

(** X2: [Join.apply] with [strip_ordering=False]: when it returns, both
    operands are in one engine, and the result is [rhs] if [lhs] is a
    join identity, [lhs] if [rhs] is one, and otherwise a join node
    whose [min_columns] and [max_columns] are the same set, which
    includes the [min_columns] asked for and is limited to the columns
    of [lhs].  In each of the three cases the result has the union of
    the columns of the operands, their engine, and the [max_rows] that
    a join of the operands declares, and it is well-formed when the
    operands are. *)
Theorem join_apply_result (predicate : Predicate) (min_columns : Columns)
    (max_columns : option Columns) (lhs rhs result : Relation) (lock : bool)
    (Hresult : Join_apply predicate min_columns max_columns lhs rhs lock false
               = Ok result) :
  engine lhs = engine rhs
  /\ (exists common : Columns,
         min_columns ⊆ common /\ common ⊆ columns lhs
         /\ result
            = if is_join_identity lhs then rhs
              else if is_join_identity rhs then lhs
              else BinaryOperationRelation
                     (Join predicate common (Some common)) lhs rhs
                     (columns lhs ∪ columns rhs) lock)
  /\ columns result = columns lhs ∪ columns rhs
  /\ engine result = engine lhs
  /\ max_rows result
     = binary_max_rows (Join predicate min_columns max_columns)
         (max_rows lhs) (max_rows rhs)
  /\ (consistent lhs -> consistent rhs -> consistent result).
Proof. exact (Join_apply_attributes _ _ _ _ _ _ _ Hresult). Qed.

Lemma Chain_apply_node (lhs rhs result : Relation) (lock : bool) :
  Chain_apply lhs rhs lock false = Ok result ->
  engine lhs = engine rhs
  /\ columns lhs = columns rhs
  /\ result = BinaryOperationRelation Chain lhs rhs (columns lhs) lock.
Proof.
  intros Hresult. unfold Chain_apply in Hresult.
  apply bind_Ok in Hresult as (lhs' & Hlhs & Hresult).
  apply guard_Ok in Hlhs as [-> _].
  apply bind_Ok in Hresult as (rhs' & Hrhs & Hresult).
  apply guard_Ok in Hrhs as [-> _].
  case_bool_decide as Hengine; [discriminate |].
  case_bool_decide as Hcolumns; [discriminate |].
  injection Hresult as <-. auto.
Qed.

(** X3: [Chain.apply] with [strip_ordering=False] never returns one of its
    operands: when it returns, the operands have the same engine and
    the same columns, and the result is the chain node over them, whose
    row bounds are the sums of theirs. *)
Theorem chain_apply_result (lhs rhs result : Relation) (lock : bool)
    (Hresult : Chain_apply lhs rhs lock false = Ok result) :
  engine lhs = engine rhs
  /\ columns lhs = columns rhs
  /\ result = BinaryOperationRelation Chain lhs rhs (columns lhs) lock
  /\ min_rows result = min_rows lhs + min_rows rhs
  /\ (forall l r, max_rows lhs = Some l -> max_rows rhs = Some r ->
                  max_rows result = Some (l + r))
  /\ (consistent lhs -> consistent rhs -> consistent result).
Proof.
  apply Chain_apply_node in Hresult as (Hengine & Hcolumns & ->).
  repeat split; auto.
  intros l r Hl Hr. simpl. rewrite Hl, Hr. reflexivity.
Qed.

(** ** Reaching the preferred engine *)

Lemma applied_columns_same (operation : UnaryOperation)
    (target target' : Relation) :
  columns target' = columns target ->
  applied_columns operation target' = applied_columns operation target.
Proof. intros Hcolumns. destruct operation; simpl; congruence. Qed.

Lemma union_singleton_swap (X Y : Columns) (tag : ColumnTag) :
  X ∪ {[tag]} ∪ Y = X ∪ Y ∪ {[tag]}.
Proof.
  apply set_eq. intros x. rewrite !elem_of_union. tauto.
Qed.

Lemma reapply_Ok (operation : UnaryOperation) (new_target : option Relation)
    (result : Relation) :
  reapply operation new_target = Ok (Some result) ->
  exists inner,
    new_target = Some inner /\ apply_operation operation inner = Ok result.
Proof.
  unfold reapply. destruct new_target as [inner |]; [| discriminate].
  intros Hresult. apply bind_Ok in Hresult as (r & Hr & [= <-]). eauto.
Qed.

(** An operation of the tree applied again, on a rewritten target with
    the attributes of the old one, gives the attributes of the old
    node. *)
Lemma rebuilt_unary (operation : UnaryOperation)
    (next_target inner result : Relation) (cols : Columns) (locked : bool) :
  consistent (UnaryOperationRelation operation next_target cols locked) ->
  as_declared Identity next_target inner ->
  apply_operation operation inner = Ok result ->
  as_declared Identity
    (UnaryOperationRelation operation next_target cols locked) result.
Proof.
  intros [-> Hnext] (Hinner & Hc & He & Hm) Hresult.
  apply apply_operation_as_declared in Hresult as (Hr & Hrc & Hre & Hrm);
    [| exact Hinner].
  repeat split; [exact Hr | | |].
  - rewrite Hrc. exact (applied_columns_same operation next_target inner Hc).
  - rewrite Hre. unfold applied_engine. rewrite He. reflexivity.
  - rewrite Hrm. exact Hm.
Qed.

Lemma rebuilt_unary_calculation (tag : ColumnTag) (expr : ColumnExpression)
    (operation : UnaryOperation) (next_target inner result : Relation)
    (cols : Columns) (locked : bool) :
  consistent (UnaryOperationRelation operation next_target cols locked) ->
  as_declared (Calculation tag expr) next_target inner ->
  apply_operation
    match operation with
    | Projection kept => Projection (kept ∪ {[tag]})
    | _ => operation
    end inner = Ok result ->
  as_declared (Calculation tag expr)
    (UnaryOperationRelation operation next_target cols locked) result.
Proof.
  intros [-> Hnext] (Hinner & Hc & He & Hm) Hresult.
  apply apply_operation_as_declared in Hresult as (Hr & Hrc & Hre & Hrm);
    [| exact Hinner].
  simpl in Hc. unfold applied_engine in He, Hre. simpl in He.
  repeat split; [exact Hr | | |].
  - rewrite Hrc.
    destruct operation; simpl; rewrite ?Hc; try reflexivity.
    apply union_singleton_swap.
  - rewrite Hre. destruct operation; simpl; rewrite ?He; reflexivity.
  - rewrite Hrm. exact Hm.
Qed.

Lemma rebuilt_join (predicate : Predicate) (min_columns : Columns)
    (max_columns : option Columns) (lhs rhs new_lhs new_rhs result : Relation)
    (cols : Columns) (locked : bool) :
  consistent (BinaryOperationRelation (Join predicate min_columns max_columns)
                lhs rhs cols locked) ->
  as_declared Identity lhs new_lhs ->
  as_declared Identity rhs new_rhs ->
  apply_binary_operation (Join predicate min_columns max_columns)
    new_lhs new_rhs = Ok result ->
  as_declared Identity
    (BinaryOperationRelation (Join predicate min_columns max_columns)
       lhs rhs cols locked) result.
Proof.
  intros (-> & Hl & Hr) (Hnl & Hlc & Hle & Hlm) (Hnr & Hrc & Hre & Hrm) Hresult.
  unfold apply_binary_operation in Hresult.
  apply Join_apply_attributes in Hresult as (_ & _ & Hc & He & Hm & Hcons).
  repeat split; [auto | | |].
  - rewrite Hc, Hlc, Hrc. reflexivity.
  - rewrite He. exact Hle.
  - rewrite Hm, Hlm, Hrm. reflexivity.
Qed.

Lemma rebuilt_chain (lhs rhs new_lhs new_rhs result : Relation)
    (cols : Columns) (locked : bool) (added : Columns) :
  consistent (BinaryOperationRelation Chain lhs rhs cols locked) ->
  consistent new_lhs -> consistent new_rhs ->
  columns new_lhs = columns lhs ∪ added ->
  engine new_lhs = engine lhs ->
  max_rows new_lhs = max_rows lhs ->
  max_rows new_rhs = max_rows rhs ->
  apply_binary_operation Chain new_lhs new_rhs = Ok result ->
  consistent result
  /\ columns result = cols ∪ added
  /\ engine result = engine lhs
  /\ max_rows result
     = max_rows (BinaryOperationRelation Chain lhs rhs cols locked).
Proof.
  intros (-> & Hl & Hr) Hnl Hnr Hc He Hlm Hrm Hresult.
  unfold apply_binary_operation in Hresult.
  apply Chain_apply_node in Hresult as (_ & _ & ->).
  repeat split; auto. simpl. rewrite Hlm, Hrm. reflexivity.
Qed.

Lemma Selection_insert_recursive_as_declared (pred : Predicate)
    (preferred_engine : Engine) (lock : bool) (target : Relation) :
  forall result : Relation,
    consistent target ->
    Selection_insert_recursive pred target preferred_engine lock
    = Ok (Some result) ->
    as_declared Identity target result.
Proof.
  induction target as [| op target IH cols locked | op lhs IHl rhs IHr cols locked];
    intros result Htarget Hfound.
  - discriminate.
  - cbn [Selection_insert_recursive is_locked] in Hfound.
    destruct locked; [discriminate |].
    destruct (is_count_dependent op); [discriminate |].
    destruct (_ && _) in Hfound; [discriminate |].
    destruct (negb _) in Hfound; [discriminate |].
    assert (exists inner, as_declared Identity target inner
                          /\ apply_operation op inner = Ok result)
      as (inner & Hinner & Hresult).
    { pose proof (proj2 Htarget) as Hnext.
      case_bool_decide as Hengine.
      - apply bind_Ok in Hfound as (inner & Hinner & Hfound).
        apply reapply_Ok in Hfound as (inner' & [= <-] & Hresult).
        exists inner. split; [| exact Hresult].
        exact (Selection_apply_here_as_declared _ _ _ _ Hnext Hinner).
      - apply bind_Ok in Hfound as (new_target & Hnew & Hfound).
        apply reapply_Ok in Hfound as (inner & -> & Hresult).
        exists inner. split; [| exact Hresult]. apply IH; assumption. }
    exact (rebuilt_unary _ _ _ _ _ _ Htarget Hinner Hresult).
  - destruct op as [join_predicate min_columns max_columns |];
      cbn [Selection_insert_recursive is_locked] in Hfound;
      (destruct locked; [discriminate |]);
      apply bind_Ok in Hfound as (new_lhs & Hlhs & Hfound);
      apply bind_Ok in Hfound as (new_rhs & Hrhs & Hfound);
      pose proof (proj1 (proj2 Htarget)) as Hl;
      pose proof (proj2 (proj2 Htarget)) as Hr.
    + assert (as_declared Identity lhs (default lhs new_lhs)) as Hnl.
      { destruct new_lhs as [new_lhs |]; [| apply self_as_declared; auto].
        destruct (bool_decide _) in Hlhs; [| discriminate].
        apply IHl; assumption. }
      assert (as_declared Identity rhs (default rhs new_rhs)) as Hnr.
      { destruct new_rhs as [new_rhs |]; [| apply self_as_declared; auto].
        destruct (bool_decide _) in Hrhs; [| discriminate].
        apply IHr; assumption. }
      assert (apply_binary_operation
                (Join join_predicate min_columns max_columns)
                (default lhs new_lhs) (default rhs new_rhs) = Ok result)
        as Hresult.
      { destruct new_lhs as [lhs' |], new_rhs as [rhs' |]; try discriminate;
          apply bind_Ok in Hfound as (found & Hfound & [= <-]); exact Hfound. }
      exact (rebuilt_join _ _ _ _ _ _ _ _ _ _ Htarget Hnl Hnr Hresult).
    + destruct new_lhs as [new_lhs |], new_rhs as [new_rhs |]; try discriminate.
      apply bind_Ok in Hfound as (found & Hfound & [= <-]).
      destruct (IHl _ Hl Hlhs) as (Hnl & Hlc & Hle & Hlm).
      destruct (IHr _ Hr Hrhs) as (Hnr & Hrc & Hre & Hrm).
      destruct (rebuilt_chain lhs rhs new_lhs new_rhs found cols false ∅ Htarget
                  Hnl Hnr) as (Hcons & Hc & He & Hm); auto.
      { rewrite Hlc. simpl. symmetry. apply (right_id_L ∅ (∪)). }
      rewrite (right_id_L ∅ (∪)) in Hc. repeat split; auto.
Qed.

Lemma Calculation_insert_recursive_as_declared (tag : ColumnTag)
    (expr : ColumnExpression) (preferred_engine : Engine) (lock : bool)
    (target : Relation) :
  forall result : Relation,
    consistent target ->
    Calculation_insert_recursive tag expr target preferred_engine lock
    = Ok (Some result) ->
    as_declared (Calculation tag expr) target result.
Proof.
  induction target as [| op target IH cols locked | op lhs IHl rhs IHr cols locked];
    intros result Htarget Hfound.
  - discriminate.
  - cbn [Calculation_insert_recursive is_locked] in Hfound.
    destruct locked; [discriminate |].
    destruct (negb _) in Hfound; [discriminate |].
    destruct (_ && _) in Hfound; [discriminate |].
    assert (exists inner,
               as_declared (Calculation tag expr) target inner
               /\ apply_operation
                    match op with
                    | Projection kept => Projection (kept ∪ {[tag]})
                    | _ => op
                    end inner = Ok result)
      as (inner & Hinner & Hresult).
    { pose proof (proj2 Htarget) as Hnext.
      case_bool_decide as Hengine.
      - apply bind_Ok in Hfound as (inner & Hinner & Hfound).
        apply reapply_Ok in Hfound as (inner' & [= <-] & Hresult).
        exists inner. split; [| exact Hresult].
        exact (Calculation_apply_here_as_declared _ _ _ _ _ Hnext Hinner).
      - apply bind_Ok in Hfound as (new_target & Hnew & Hfound).
        apply reapply_Ok in Hfound as (inner & -> & Hresult).
        exists inner. split; [| exact Hresult]. apply IH; assumption. }
    exact (rebuilt_unary_calculation _ _ _ _ _ _ _ _ Htarget Hinner Hresult).
  - pose proof (proj1 (proj2 Htarget)) as Hl.
    pose proof (proj2 (proj2 Htarget)) as Hr.
    destruct op as [join_predicate min_columns max_columns |];
      cbn [Calculation_insert_recursive is_locked] in Hfound;
      (destruct locked; [discriminate |]);
      apply bind_Ok in Hfound as (new_lhs & Hlhs & Hfound).
    + destruct Htarget as (-> & _ & _).
      destruct new_lhs as [new_lhs |].
      * destruct (bool_decide _) in Hlhs; [| discriminate].
        destruct (IHl _ Hl Hlhs) as (Hnl & Hlc & Hle & Hlm).
        apply bind_Ok in Hfound as (found & Hfound & [= <-]).
        unfold apply_binary_operation in Hfound.
        apply Join_apply_attributes in Hfound as (_ & _ & Hc & He & Hm & Hcons).
        repeat split; [auto | | |].
        -- rewrite Hc, Hlc. exact (union_singleton_swap _ _ _).
        -- rewrite He. exact Hle.
        -- rewrite Hm, Hlm. reflexivity.
      * apply bind_Ok in Hfound as (new_rhs & Hrhs & Hfound).
        destruct new_rhs as [new_rhs |]; [| discriminate].
        clear Hlhs. destruct (bool_decide _) in Hrhs; [| discriminate].
        destruct (IHr _ Hr Hrhs) as (Hnr & Hrc & Hre & Hrm).
        apply bind_Ok in Hfound as (found & Hfound & [= <-]).
        unfold apply_binary_operation in Hfound.
        apply Join_apply_attributes in Hfound as (_ & _ & Hc & He & Hm & Hcons).
        repeat split; [auto | | |].
        -- rewrite Hc, Hrc. exact (assoc_L (∪) _ _ _).
        -- exact He.
        -- rewrite Hm, Hrm. reflexivity.
    + apply bind_Ok in Hfound as (new_rhs & Hrhs & Hfound).
      destruct new_lhs as [new_lhs |], new_rhs as [new_rhs |]; try discriminate.
      apply bind_Ok in Hfound as (found & Hfound & [= <-]).
      destruct (IHl _ Hl Hlhs) as (Hnl & Hlc & Hle & Hlm).
      destruct (IHr _ Hr Hrhs) as (Hnr & Hrc & Hre & Hrm).
      exact (rebuilt_chain lhs rhs new_lhs new_rhs found cols false {[tag]}
               Htarget Hnl Hnr Hlc Hle Hlm Hrm Hfound).
Qed.

Lemma Sort_insert_recursive_as_declared (terms : list SortTerm)
    (preferred_engine : Engine) (lock : bool) (target : Relation) :
  forall result : Relation,
    consistent target ->
    Sort_insert_recursive terms target preferred_engine lock
    = Ok (Some result) ->
    as_declared Identity target result.
Proof.
  induction target as [| op target IH cols locked | op lhs IHl rhs IHr cols locked];
    intros result Htarget Hfound.
  - discriminate.
  - cbn [Sort_insert_recursive is_locked] in Hfound.
    destruct locked; [discriminate |].
    destruct (negb _) in Hfound; [discriminate |].
    destruct (is_order_dependent op); [discriminate |].
    assert (exists inner, as_declared Identity target inner
                          /\ apply_operation op inner = Ok result)
      as (inner & Hinner & Hresult).
    { pose proof (proj2 Htarget) as Hnext.
      case_bool_decide as Hengine.
      - apply bind_Ok in Hfound as (inner & Hinner & Hfound).
        apply reapply_Ok in Hfound as (inner' & [= <-] & Hresult).
        exists inner. split; [| exact Hresult].
        exact (Sort_apply_here_as_declared _ _ _ _ Hnext Hinner).
      - apply bind_Ok in Hfound as (new_target & Hnew & Hfound).
        apply reapply_Ok in Hfound as (inner & -> & Hresult).
        exists inner. split; [| exact Hresult]. apply IH; assumption. }
    exact (rebuilt_unary _ _ _ _ _ _ Htarget Hinner Hresult).
  - cbn [Sort_insert_recursive is_locked] in Hfound.
    destruct locked; discriminate.
Qed.

Lemma Deduplication_insert_recursive_as_declared
    (unique_key : option (list ColumnTag)) (preferred_engine : Engine)
    (lock : bool) (target : Relation) :
  forall result : Relation,
    consistent target ->
    join_on_spine target = false ->
    Deduplication_insert_recursive unique_key target preferred_engine lock
    = Ok (Some result) ->
    as_declared Identity target result.
Proof.
  induction target as [| op target IH cols locked | op lhs IHl rhs IHr cols locked];
    intros result Htarget Hspine Hfound.
  - discriminate.
  - cbn [Deduplication_insert_recursive is_locked] in Hfound.
    destruct locked; [discriminate |].
    destruct (match op with Deduplication _ => true | _ => false end).
    { injection Hfound as <-. apply self_as_declared; auto. }
    destruct (is_count_dependent op); [discriminate |].
    destruct (_ && _) in Hfound; [discriminate |].
    destruct (negb _) in Hfound; [discriminate |].
    assert (exists inner, as_declared Identity target inner
                          /\ apply_operation op inner = Ok result)
      as (inner & Hinner & Hresult).
    { pose proof (proj2 Htarget) as Hnext.
      case_bool_decide as Hengine.
      - apply bind_Ok in Hfound as (inner & Hinner & Hfound).
        apply reapply_Ok in Hfound as (inner' & [= <-] & Hresult).
        exists inner. split; [| exact Hresult].
        exact (Deduplication_apply_here_as_declared _ _ _ _ Hnext Hinner).
      - apply bind_Ok in Hfound as (new_target & Hnew & Hfound).
        apply reapply_Ok in Hfound as (inner & -> & Hresult).
        exists inner. split; [| exact Hresult]. apply IH; assumption. }
    exact (rebuilt_unary _ _ _ _ _ _ Htarget Hinner Hresult).
  - destruct op; [discriminate |].
    cbn [Deduplication_insert_recursive is_locked] in Hfound.
    destruct locked; discriminate.
Qed.

Lemma reach_preferred_engine_Ok
    (insert_recursive : Relation -> Engine -> Result (option Relation))
    (target : Relation) (preferred_engine : option Engine)
    (backtrack transfer require_preferred_engine : bool)
    (placement : Placement) :
  reach_preferred_engine insert_recursive target preferred_engine
    backtrack transfer require_preferred_engine = Ok placement ->
  placement = GoOn target
  \/ (exists preferred moved,
         preferred_engine = Some preferred /\ transfer = true
         /\ Transfer_apply preferred target false false = Ok moved
         /\ engine moved = preferred
         /\ placement = GoOn moved)
  \/ (exists preferred result,
         preferred_engine = Some preferred /\ backtrack = true
         /\ insert_recursive target preferred = Ok (Some result)
         /\ placement = Inserted result).
Proof.
  unfold reach_preferred_engine. intros Hreach.
  destruct preferred_engine as [preferred |]; [| left; congruence].
  case_bool_decide as Hengine; [| left; congruence].
  apply bind_Ok in Hreach as (found & Hfound & Hreach).
  destruct found as [result |].
  - right. right. exists preferred, result.
    destruct backtrack; [| discriminate]. repeat split; congruence.
  - destruct transfer.
    + right. left.
      apply bind_Ok in Hreach as (moved & Hmoved & [= <-]).
      exists preferred, moved. repeat split; auto.
      unfold Transfer_apply in Hmoved.
      rewrite bool_decide_eq_false_2 in Hmoved by congruence.
      apply bind_Ok in Hmoved as (target' & _ & [= <-]). reflexivity.
    + left. destruct require_preferred_engine; congruence.
Qed.

(** What is left of an [apply] that takes a preferred engine, once the
    target has passed its first tests: a tree found by
    [_insert_recursive], or the end of [apply] on the target or on its
    transfer to the preferred engine. *)
Lemma placed_as_declared (operation : UnaryOperation)
    (insert_recursive : Relation -> Engine -> Result (option Relation))
    (finish : Relation -> Result Relation)
    (target : Relation) (preferred_engine : option Engine)
    (backtrack transfer require_preferred_engine : bool)
    (placement : Placement) (result : Relation) :
  consistent target ->
  (forall preferred found,
      backtrack = true ->
      insert_recursive target preferred = Ok (Some found) ->
      consistent found
      /\ columns found = applied_columns operation target
      /\ engine found = engine target
      /\ max_rows found = max_rows target) ->
  (forall current found,
      consistent current -> finish current = Ok found ->
      consistent found
      /\ columns found = applied_columns operation current
      /\ engine found = engine current
      /\ max_rows found = max_rows current) ->
  reach_preferred_engine insert_recursive target preferred_engine
    backtrack transfer require_preferred_engine = Ok placement ->
  match placement with
  | Inserted found => Ok found
  | GoOn current => finish current
  end = Ok result ->
  consistent result
  /\ columns result = applied_columns operation target
  /\ max_rows result = max_rows target
  /\ (engine result = engine target
      \/ (transfer = true /\ preferred_engine = Some (engine result))).
Proof.
  intros Htarget Hinsert Hfinish Hreach Hresult.
  apply reach_preferred_engine_Ok in Hreach
    as [-> | [(preferred & moved & -> & -> & Hmoved & Hat & ->)
             | (preferred & found & -> & Hback & Hfound & ->)]].
  - destruct (Hfinish _ _ Htarget Hresult) as (Hr & Hc & He & Hm). auto.
  - apply Transfer_apply_as_declared in Hmoved as (Hmv & Hmc & _ & Hmm);
      [| exact Htarget].
    destruct (Hfinish _ _ Hmv Hresult) as (Hr & Hc & He & Hm).
    repeat split; [exact Hr | | congruence |].
    + rewrite Hc. exact (applied_columns_same operation target moved Hmc).
    + right. split; [reflexivity |]. congruence.
  - injection Hresult as <-.
    destruct (Hinsert _ _ Hback Hfound) as (Hr & Hc & He & Hm). auto.
Qed.

(** X4: [Selection.apply] with any preferred engine, [backtrack],
    [transfer], [require_preferred_engine] and [lock]: on a well-formed
    tree, whether the selection is put on top, merged into a selection,
    pushed upstream by [_insert_recursive] through unary operations,
    joins and chains, or put behind a transfer, the tree returned is
    well-formed and has the columns and the [max_rows] of the target;
    it has the engine of the target, or the preferred engine when
    [transfer] is set. *)
Theorem selection_apply_keeps_columns_and_max_rows (pred : Predicate)
    (target : Relation) (preferred_engine : option Engine)
    (backtrack transfer require_preferred_engine lock : bool)
    (result : Relation)
    (Htarget : consistent target)
    (Hresult : Selection_apply pred target preferred_engine backtrack transfer
                 require_preferred_engine lock false = Ok result) :
  consistent result
  /\ columns result = columns target
  /\ max_rows result = max_rows target
  /\ (engine result = engine target
      \/ (transfer = true /\ preferred_engine = Some (engine result))).
Proof.
  unfold Selection_apply in Hresult.
  case_bool_decide as Htrivial; [injection Hresult as <-; auto |].
  destruct (negb _) in Hresult; [discriminate |].
  apply bind_Ok in Hresult as (target' & Hg & Hresult).
  apply guard_Ok in Hg as [-> _].
  apply bind_Ok in Hresult as (placement & Hreach & Hresult).
  refine (placed_as_declared (Selection pred) _
            (fun current => Selection_finish pred current lock)
            _ _ _ _ _ _ _ Htarget _ _ Hreach Hresult).
  - intros preferred found _ Hfound.
    exact (Selection_insert_recursive_as_declared _ _ _ _ _ Htarget Hfound).
  - intros current found Hcurrent Hfound.
    exact (Selection_finish_as_declared _ _ _ _ Hcurrent Hfound).
Qed.

(** X5: [Calculation.apply] with any preferred engine, [backtrack],
    [transfer], [require_preferred_engine] and [lock]: on a well-formed
    tree, wherever the calculation ends up (on top, upstream of unary
    operations, in a branch of a join, in both branches of a chain, or
    behind a transfer), the tree returned is well-formed and has the
    columns of the target plus the tag, and the [max_rows] of the
    target; it has the engine of the target, or the preferred engine
    when [transfer] is set. *)
Theorem calculation_apply_adds_its_column (tag : ColumnTag)
    (expr : ColumnExpression) (target : Relation)
    (preferred_engine : option Engine)
    (backtrack transfer require_preferred_engine lock : bool)
    (result : Relation)
    (Htarget : consistent target)
    (Hresult : Calculation_apply tag expr target preferred_engine backtrack
                 transfer require_preferred_engine lock false = Ok result) :
  consistent result
  /\ columns result = columns target ∪ {[tag]}
  /\ max_rows result = max_rows target
  /\ (engine result = engine target
      \/ (transfer = true /\ preferred_engine = Some (engine result))).
Proof.
  unfold Calculation_apply in Hresult.
  apply bind_Ok in Hresult as (target' & Hg & Hresult).
  apply guard_Ok in Hg as [-> _].
  apply bind_Ok in Hresult as (_ & _ & Hresult).
  apply bind_Ok in Hresult as (placement & Hreach & Hresult).
  refine (placed_as_declared (Calculation tag expr) _
            (fun current => Calculation_finish tag expr current lock)
            _ _ _ _ _ _ _ Htarget _ _ Hreach Hresult).
  - intros preferred found _ Hfound.
    exact (Calculation_insert_recursive_as_declared _ _ _ _ _ _ Htarget Hfound).
  - intros current found Hcurrent Hfound.
    exact (Calculation_finish_as_declared _ _ _ _ _ Hcurrent Hfound).
Qed.

(** X6: [Sort.apply] with any preferred engine, [backtrack], [transfer],
    [require_preferred_engine] and [lock]: on a well-formed tree,
    whether the sort is put on top, merged into a sort, pushed upstream
    of unary operations or put behind a transfer, the tree returned is
    well-formed and has the columns and the [max_rows] of the target;
    it has the engine of the target, or the preferred engine when
    [transfer] is set. *)
Theorem sort_apply_keeps_columns_and_max_rows (terms : list SortTerm)
    (target : Relation) (preferred_engine : option Engine)
    (backtrack transfer require_preferred_engine lock : bool)
    (result : Relation)
    (Htarget : consistent target)
    (Hresult : Sort_apply terms target preferred_engine backtrack transfer
                 require_preferred_engine lock = Ok result) :
  consistent result
  /\ columns result = columns target
  /\ max_rows result = max_rows target
  /\ (engine result = engine target
      \/ (transfer = true /\ preferred_engine = Some (engine result))).
Proof.
  unfold Sort_apply in Hresult.
  destruct terms as [| term terms]; [injection Hresult as <-; auto |].
  apply bind_Ok in Hresult as (placement & Hreach & Hresult).
  refine (placed_as_declared (Sort (term :: terms)) _
            (fun current => Sort_apply_here (term :: terms) current lock)
            _ _ _ _ _ _ _ Htarget _ _ Hreach Hresult).
  - intros preferred found _ Hfound.
    exact (Sort_insert_recursive_as_declared _ _ _ _ _ Htarget Hfound).
  - intros current found Hcurrent Hfound.
    exact (Sort_apply_here_as_declared _ _ _ _ Hcurrent Hfound).
Qed.

(** X7: [Deduplication.apply] with any preferred engine, [transfer],
    [require_preferred_engine] and [lock], and with [backtrack] when no
    join is met below the root through unary operations: on a
    well-formed tree, whether the deduplication is put on top, pushed
    upstream of unary operations, dropped because an unlocked
    deduplication is found there, or put behind a transfer, the tree
    returned is well-formed and has the columns and the [max_rows] of
    the target; it has the engine of the target, or the preferred
    engine when [transfer] is set. *)
Theorem deduplication_apply_keeps_columns_and_max_rows
    (unique_key : option (list ColumnTag)) (target : Relation)
    (preferred_engine : option Engine)
    (backtrack transfer require_preferred_engine lock : bool)
    (result : Relation)
    (Htarget : consistent target)
    (Hspine : backtrack = true -> join_on_spine target = false)
    (Hresult : Deduplication_apply unique_key target preferred_engine backtrack
                 transfer require_preferred_engine lock false = Ok result) :
  consistent result
  /\ columns result = columns target
  /\ max_rows result = max_rows target
  /\ (engine result = engine target
      \/ (transfer = true /\ preferred_engine = Some (engine result))).
Proof.
  assert (forall key,
             Deduplication_apply_with_key key target preferred_engine backtrack
               transfer require_preferred_engine lock false = Ok result ->
             consistent result
             /\ columns result = columns target
             /\ max_rows result = max_rows target
             /\ (engine result = engine target
                 \/ (transfer = true /\ preferred_engine = Some (engine result))))
    as Hwith_key.
  { intros key Hkey. unfold Deduplication_apply_with_key in Hkey.
    apply bind_Ok in Hkey as (target' & Hg & Hkey).
    apply guard_Ok in Hg as [-> _].
    apply bind_Ok in Hkey as (placement & Hreach & Hkey).
    refine (placed_as_declared (Deduplication (Some key)) _
              (fun current =>
                 Ok (UnaryOperation_apply (Deduplication (Some key)) current false))
              _ _ _ _ _ _ _ Htarget _ _ Hreach Hkey).
    - intros preferred found Hback Hfound.
      exact (Deduplication_insert_recursive_as_declared _ _ _ _ _ Htarget
               (Hspine Hback) Hfound).
    - intros current found Hcurrent [= <-]. repeat split; auto. }
  unfold Deduplication_apply in Hresult.
  destruct unique_key as [key |]; [exact (Hwith_key key Hresult) |].
  apply bind_Ok in Hresult as (target' & Hg & Hresult).
  apply guard_Ok in Hg as [-> _].
  apply bind_Ok in Hresult as (key & _ & Hresult).
  exact (Hwith_key key Hresult).
Qed.

(** ** Row bounds *)

Lemma regular_bounds (r : Relation) (Hregular : regular r) :
  0 <= min_rows r /\ forall m, max_rows r = Some m -> min_rows r <= m.
Proof.
  induction r as [| op target IH cols locked | op lhs IHl rhs IHr cols locked].
  - exact Hregular.
  - destruct Hregular as [Htarget Hop].
    destruct (IH Htarget) as [Hmin Hmax].
    change (0 <= unary_min_rows op (min_rows target)
            /\ forall m, max_rows target = Some m ->
                         unary_min_rows op (min_rows target) <= m).
    destruct op as [| | | | start [stop |] | | | |]; simpl;
      try (split; [exact Hmin | exact Hmax]).
    + split; [lia |]. intros m Hm. specialize (Hmax m Hm).
      assert (m <> 0) by congruence. lia.
    + split; [lia |]. intros m Hm. specialize (Hmax m Hm). lia.
    + split; [lia |]. intros m Hm. specialize (Hmax m Hm). lia.
  - destruct Hregular as [Hl Hr].
    destruct (IHl Hl) as [Hlmin Hlmax], (IHr Hr) as [Hrmin Hrmax].
    change (0 <= binary_min_rows op (min_rows lhs) (min_rows rhs)
            /\ forall m, binary_max_rows op (max_rows lhs) (max_rows rhs)
                         = Some m ->
                         binary_min_rows op (min_rows lhs) (min_rows rhs) <= m).
    destruct op as [join_predicate min_columns max_columns |]; simpl.
    + split; [lia |]. intros m.
      destruct (_ || _); [intros [= <-]; lia |].
      destruct (max_rows lhs) as [l |], (max_rows rhs) as [r |];
        try discriminate.
      intros [= <-]. specialize (Hlmax l eq_refl). specialize (Hrmax r eq_refl).
      nia.
    + split; [lia |]. intros m.
      destruct (max_rows lhs) as [l |], (max_rows rhs) as [r |];
        try discriminate.
      intros [= <-]. specialize (Hlmax l eq_refl). specialize (Hrmax r eq_refl).
      lia.
Qed.

(** X8: the row bounds of a tree are in order, [0 <= min_rows] and
    [min_rows <= max_rows], when those of its leaves are, except below
    a deduplication of a relation known to be empty and a slice that
    stops before it starts: every [applied_min_rows] and
    [applied_max_rows] of [_operations/] keeps the order of the bounds
    of its target(s). *)
Theorem row_bounds_stay_in_order (r : Relation) (Hregular : regular r) :
  0 <= min_rows r /\ forall m, max_rows r = Some m -> min_rows r <= m.
Proof. exact (regular_bounds r Hregular). Qed.

Lemma regular_target (operation : UnaryOperation) (target : Relation)
    (cols : Columns) (locked : bool) :
  regular (UnaryOperationRelation operation target cols locked) ->
  regular target.
Proof. intros [Htarget _]. exact Htarget. Qed.

Lemma regular_node (operation : UnaryOperation) (target : Relation)
    (lock : bool) :
  regular target ->
  match operation with
  | Deduplication _ => max_rows target <> Some 0
  | Slice start (Some stop) => start <= stop
  | _ => True
  end ->
  regular (UnaryOperation_apply operation target lock).
Proof. intros Htarget Hoperation. split; assumption. Qed.

Lemma Selection_apply_default_regular (target : Relation) :
  forall (pred : Predicate) (result : Relation),
    regular target ->
    Selection_apply_default pred target = Ok result ->
    regular result.
Proof.
  induction target as [| op target IH cols locked | op lhs IHl rhs IHr cols locked];
    intros pred result Htarget; rewrite Selection_apply_default_unfold;
    (destruct (bool_decide (as_trivial pred = Some true));
     [intros [= <-]; exact Htarget |]);
    destruct (negb (bool_decide _)); try discriminate;
    destruct (order_guard _ _ _); try discriminate;
    destruct (negb (predicate_is_supported_by _ _)); try discriminate;
    try (intros [= <-]; apply (regular_node (Selection pred)); [exact Htarget | exact I]).
  destruct op;
    try (intros [= <-]; apply (regular_node (Selection pred)); [exact Htarget | exact I]).
  intros Hmerged. exact (IH _ _ (regular_target _ _ _ _ Htarget) Hmerged).
Qed.

Lemma Projection_apply_default_regular (target : Relation) :
  forall (cols : Columns) (result : Relation),
    regular target ->
    Projection_apply_default cols target = Ok result ->
    regular result.
Proof.
  induction target as [| op target IH tcols locked | op lhs IHl rhs IHr tcols locked];
    intros cols result Htarget; rewrite Projection_apply_default_unfold;
    (destruct (bool_decide (cols = columns _));
     [intros [= <-]; exact Htarget |]);
    destruct (order_guard _ _ _); try discriminate;
    destruct (negb (bool_decide _)); try discriminate;
    try (intros [= <-]; apply (regular_node (Projection cols)); [exact Htarget | exact I]).
  destruct op;
    try (intros [= <-]; apply (regular_node (Projection cols)); [exact Htarget | exact I]).
  - destruct (bool_decide _).
    + intros Hfolded. exact (IH _ _ (regular_target _ _ _ _ Htarget) Hfolded).
    + intros [= <-]. apply (regular_node (Projection cols)); [exact Htarget | exact I].
  - intros Hfolded. exact (IH _ _ (regular_target _ _ _ _ Htarget) Hfolded).
Qed.

Lemma Sort_apply_here_regular (target : Relation) :
  forall (terms : list SortTerm) (lock : bool) (result : Relation),
    regular target ->
    Sort_apply_here terms target lock = Ok result ->
    regular result.
Proof.
  induction target as [| op target IH cols locked | op lhs IHl rhs IHr cols locked];
    intros terms lock result Htarget;
    (destruct (decide (terms = [])) as [-> | Hterms];
     [destruct lock; simpl; intros [= <-]; exact Htarget |]);
    rewrite Sort_apply_here_unfold by exact Hterms;
    destruct (check_sort_terms terms _) as [[] |]; simpl; try discriminate;
    try (intros [= <-]; apply (regular_node (Sort terms)); [exact Htarget | exact I]).
  destruct op;
    try (intros [= <-]; apply (regular_node (Sort terms)); [exact Htarget | exact I]).
  intros Hmerged. exact (IH _ _ _ (regular_target _ _ _ _ Htarget) Hmerged).
Qed.

(** X20: [apply] with default arguments keeps the row bounds in order:
    applied to a tree of which X8 speaks, every operation returns such
    a tree again, provided that a deduplication is not applied to a
    relation known to be empty, and that a slice is not applied to a
    slice and does not stop before it starts. *)
Theorem apply_keeps_the_row_bounds_in_order (operation : UnaryOperation)
    (target result : Relation)
    (Htarget : regular target)
    (Hdeduplication : forall key, operation = Deduplication key ->
                                  max_rows target <> Some 0)
    (Hslice : forall start stop,
        operation = Slice start stop ->
        slice_rooted target = false
        /\ forall bound, stop = Some bound -> start <= bound)
    (Hresult : apply_operation operation target = Ok result) :
  regular result
  /\ 0 <= min_rows result
  /\ forall m, max_rows result = Some m -> min_rows result <= m.
Proof.
  assert (regular result) as Hregular;
    [| split; [exact Hregular | exact (regular_bounds result Hregular)]].
  destruct operation
    as [tag expr | unique_key | cols | pred | start stop | terms | name
        | destination |];
    unfold apply_operation in Hresult.
  - unfold Calculation_apply_here in Hresult.
    apply bind_Ok in Hresult as (target' & Hg & Hresult).
    apply guard_Ok in Hg as [-> _].
    apply bind_Ok in Hresult as (_ & _ & Hresult).
    unfold Calculation_finish in Hresult.
    destruct (negb _) in Hresult; [discriminate |].
    injection Hresult as <-.
    apply (regular_node (Calculation tag expr)); [exact Htarget | exact I].
  - apply Deduplication_apply_here_node in Hresult as (key & -> & _).
    split; [exact Htarget |]. exact (Hdeduplication unique_key eq_refl).
  - rewrite Projection_apply_defaults in Hresult.
    exact (Projection_apply_default_regular _ _ _ Htarget Hresult).
  - rewrite Selection_apply_defaults in Hresult.
    exact (Selection_apply_default_regular _ _ _ Htarget Hresult).
  - injection Hresult as <-.
    destruct (Hslice start stop eq_refl) as [Hrooted Hbounds].
    destruct target as [| op target cols locked |]; cbn [Slice_apply];
      destruct ((start =? 0) && is_none stop); try exact Htarget;
      try (apply (regular_node (Slice start stop)); [exact Htarget |];
           destruct stop as [bound |]; [exact (Hbounds bound eq_refl) | exact I]).
    destruct op; try discriminate;
      (apply (regular_node (Slice start stop)); [exact Htarget |]);
      (destruct stop as [bound |]; [exact (Hbounds bound eq_refl) | exact I]).
  - exact (Sort_apply_here_regular _ _ _ _ Htarget Hresult).
  - apply Materialization_apply_Ok in Hresult as [[_ ->] | [_ ->]];
      [exact Htarget |].
    apply (regular_node (Materialization _) target true); [exact Htarget | exact I].
  - unfold Transfer_apply in Hresult.
    case_bool_decide as Hengine; [injection Hresult as <-; exact Htarget |].
    apply bind_Ok in Hresult as (target' & Hg & Hresult).
    apply guard_Ok in Hg as [-> _].
    injection Hresult as <-.
    apply (regular_node (Transfer destination)); [exact Htarget | exact I].
  - injection Hresult as <-. exact Htarget.
Qed.

(** X21: a slice that starts beyond the last row of the slice it is
    applied to is merged with it into a slice that stops before it
    starts, and the relation returned has a negative [min_rows]:
    [Slice.apply] adds the two starts and takes the smaller stop, and
    [applied_min_rows] takes [stop - start] as it comes. *)
Theorem slice_beyond_a_slice_has_negative_min_rows
    (previous_start previous_stop start : Z) (stop : option Z)
    (nested : Relation) (cols : Columns) (locked lock : bool)
    (Hnested : slice_rooted nested = false)
    (Hbeyond : previous_stop - previous_start < start) :
  ((start =? 0) && is_none stop = false ->
   exists new_stop : Z,
     new_stop < previous_start + start
     /\ Slice_apply start stop
          (UnaryOperationRelation (Slice previous_start (Some previous_stop))
             nested cols locked) lock
        = UnaryOperationRelation (Slice (previous_start + start) (Some new_stop))
            nested (columns nested) lock)
  /\ min_rows (Slice_apply start stop
                 (UnaryOperationRelation
                    (Slice previous_start (Some previous_stop))
                    nested cols locked) lock) < 0.
Proof.
  assert ((start =? 0) && is_none stop = false ->
          exists new_stop : Z,
            new_stop < previous_start + start
            /\ Slice_apply start stop
                 (UnaryOperationRelation
                    (Slice previous_start (Some previous_stop))
                    nested cols locked) lock
               = UnaryOperationRelation
                   (Slice (previous_start + start) (Some new_stop))
                   nested (columns nested) lock) as Hmerged.
  { intros Hkept. cbn [Slice_apply]. rewrite Hkept.
    assert (exists new_stop,
               merged_stop previous_start (Some previous_stop) stop
               = Some new_stop /\ new_stop <= previous_stop)
      as (new_stop & -> & Hstop).
    { destruct stop as [bound |]; simpl; eexists; split; try reflexivity; lia. }
    exists new_stop. split; [lia |].
    unfold merged_start.
    destruct nested as [| op nested' ncols nlocked |]; cbn [Slice_apply];
      rewrite andb_false_r; try reflexivity.
    destruct op; try discriminate; reflexivity. }
  split; [exact Hmerged |].
  destruct ((start =? 0) && is_none stop) eqn:Hkept.
  - cbn [Slice_apply]. rewrite Hkept. simpl.
    apply andb_prop in Hkept as [Hstart _]. apply Z.eqb_eq in Hstart. lia.
  - destruct (Hmerged eq_refl) as (new_stop & Hstop & ->). simpl. lia.
Qed.

(** ** Columns *)

Lemma check_sort_terms_Ok (terms : list SortTerm) (target : Relation)
    (checked : unit) :
  check_sort_terms terms target = Ok checked ->
  forall term, term ∈ terms ->
               expression_columns_required (term_expression term)
               ⊆ columns target.
Proof.
  induction terms as [| first terms IH]; intros Hchecked term Hin.
  - apply elem_of_nil in Hin as [].
  - cbn [check_sort_terms] in Hchecked.
    destruct (negb (expression_is_supported_by _ _)); [discriminate |].
    case_bool_decide as Hsub; [| discriminate].
    apply elem_of_cons in Hin as [-> | Hin]; auto.
Qed.

Lemma sort_columns_required_least (terms : list SortTerm) (X : Columns) :
  (forall term, term ∈ terms ->
                expression_columns_required (term_expression term) ⊆ X) ->
  sort_columns_required terms ⊆ X.
Proof.
  unfold sort_columns_required. generalize (∅ : Columns) (empty_subseteq X).
  induction terms as [| first terms IH]; intros acc Hacc Hall; [exact Hacc |].
  apply IH.
  - apply union_least; [exact Hacc |]. apply Hall. left.
  - intros term Hin. apply Hall. right. exact Hin.
Qed.

(** X9: no [apply] with default arguments accepts an operation that needs
    a column its target does not have: whenever it returns, the
    [columns_required] of the operation are among the columns of the
    target.  The one operation that is let through without the test is
    a selection whose predicate is trivially true, which [apply]
    drops. *)
Theorem apply_requires_the_columns (operation : UnaryOperation)
    (target result : Relation)
    (Hkept : forall pred, operation = Selection pred ->
                          as_trivial pred <> Some true)
    (Hresult : apply_operation operation target = Ok result) :
  columns_required operation ⊆ columns target.
Proof.
  destruct operation
    as [tag expr | unique_key | cols | pred | start stop | terms | name
        | destination |];
    unfold apply_operation in Hresult; cbn [columns_required];
    try apply empty_subseteq.
  - unfold Calculation_apply_here in Hresult.
    apply bind_Ok in Hresult as (target' & Hg & Hresult).
    apply guard_Ok in Hg as [-> _].
    apply bind_Ok in Hresult as (checked & Hchecked & _).
    unfold Calculation_check_columns in Hchecked.
    case_bool_decide as Hsub; [exact Hsub | discriminate].
  - unfold Projection_apply_here in Hresult.
    case_bool_decide as Heq; [rewrite Heq; reflexivity |].
    apply bind_Ok in Hresult as (target' & Hg & Hresult).
    apply guard_Ok in Hg as [-> _].
    case_bool_decide as Hsub; [exact Hsub | discriminate].
  - unfold Selection_apply_here in Hresult.
    rewrite bool_decide_eq_false_2 in Hresult by exact (Hkept pred eq_refl).
    case_bool_decide as Hsub; [exact Hsub | discriminate].
  - destruct (decide (terms = [])) as [-> | Hterms]; [apply empty_subseteq |].
    rewrite Sort_apply_here_unfold in Hresult by exact Hterms.
    apply bind_Ok in Hresult as (checked & Hchecked & _).
    apply sort_columns_required_least.
    exact (check_sort_terms_Ok _ _ _ Hchecked).
Qed.

(** ** Merged sorts *)

Lemma merged_terms_snoc (terms previous : list SortTerm) (term : SortTerm) :
  merged_terms terms (previous ++ [term])
  = if bool_decide (term ∈ merged_terms terms previous)
    then merged_terms terms previous
    else merged_terms terms previous ++ [term].
Proof. unfold merged_terms. rewrite foldl_app. reflexivity. Qed.

(** X10: the terms of two merged sorts, as [Sort.apply] computes them: the
    new terms come first, in their order; a term is in the result
    exactly when it is in one of the two lists; and no term is
    repeated unless the new terms repeat it. *)
Theorem merged_terms_are_the_union (terms previous : list SortTerm) :
  (exists rest, merged_terms terms previous = terms ++ rest)
  /\ (forall term, term ∈ merged_terms terms previous
                   <-> term ∈ terms \/ term ∈ previous)
  /\ (NoDup terms -> NoDup (merged_terms terms previous)).
Proof.
  induction previous as [| term previous IH] using rev_ind.
  - split; [exists []; symmetry; apply app_nil_r |].
    split; [| auto]. intros term. rewrite elem_of_nil. tauto.
  - destruct IH as ((rest & Hprefix) & Hmembers & Hnodup).
    rewrite merged_terms_snoc. case_bool_decide as Hin.
    + split; [exists rest; exact Hprefix |].
      split; [| exact Hnodup].
      intros other. rewrite elem_of_app, list_elem_of_singleton, Hmembers.
      split; [tauto |]. intros [Hother | [Hother | ->]]; auto.
      apply Hmembers, Hin.
    + split; [exists (rest ++ [term]); rewrite Hprefix; symmetry; apply app_assoc |].
      split.
      * intros other.
        rewrite !elem_of_app, list_elem_of_singleton, Hmembers. tauto.
      * intros Hterms. apply NoDup_app. split; [exact (Hnodup Hterms) |].
        split; [| apply NoDup_singleton].
        intros other Hother Hsame. apply list_elem_of_singleton in Hsame as ->.
        exact (Hin Hother).
Qed.

(** ** Merging *)

Lemma simplified_node (operation : UnaryOperation) (target : Relation)
    (lock : bool) :
  merges operation target = false ->
  simplified target = true ->
  simplified (UnaryOperation_apply operation target lock) = true.
Proof. intros Hmerges Htarget. simpl. rewrite Hmerges, Htarget. reflexivity. Qed.

Lemma simplified_target (operation : UnaryOperation) (target : Relation)
    (cols : Columns) (locked : bool) :
  simplified (UnaryOperationRelation operation target cols locked) = true ->
  simplified target = true.
Proof. simpl. intros Hnode. apply andb_prop in Hnode as [_ Htarget]. exact Htarget. Qed.

Lemma Slice_apply_simplified (target : Relation) :
  forall (start : Z) (stop : option Z) (lock : bool),
    simplified target = true ->
    simplified (Slice_apply start stop target lock) = true.
Proof.
  induction target as [| op target IH cols locked | op lhs IHl rhs IHr cols locked];
    intros start stop lock Htarget; cbn [Slice_apply];
    destruct ((start =? 0) && is_none stop); try exact Htarget;
    try (apply simplified_node; [reflexivity | exact Htarget]).
  destruct op; try (apply simplified_node; [reflexivity | exact Htarget]).
  apply IH. exact (simplified_target _ _ _ _ Htarget).
Qed.

Lemma Selection_apply_default_simplified (target : Relation) :
  forall (pred : Predicate) (result : Relation),
    simplified target = true ->
    Selection_apply_default pred target = Ok result ->
    simplified result = true.
Proof.
  induction target as [| op target IH cols locked | op lhs IHl rhs IHr cols locked];
    intros pred result Htarget; rewrite Selection_apply_default_unfold;
    (destruct (bool_decide (as_trivial pred = Some true));
     [intros [= <-]; exact Htarget |]);
    destruct (negb (bool_decide _)); try discriminate;
    destruct (order_guard _ _ _); try discriminate;
    destruct (negb (predicate_is_supported_by _ _)); try discriminate;
    try (intros [= <-]; apply simplified_node; [reflexivity | exact Htarget]).
  destruct op;
    try (intros [= <-]; apply simplified_node; [reflexivity | exact Htarget]).
  intros Hmerged. exact (IH _ _ (simplified_target _ _ _ _ Htarget) Hmerged).
Qed.

Lemma Projection_apply_default_simplified (target : Relation) :
  forall (cols : Columns) (result : Relation),
    simplified target = true ->
    Projection_apply_default cols target = Ok result ->
    simplified result = true.
Proof.
  induction target as [| op target IH tcols locked | op lhs IHl rhs IHr tcols locked];
    intros cols result Htarget; rewrite Projection_apply_default_unfold;
    (destruct (bool_decide (cols = columns _));
     [intros [= <-]; exact Htarget |]);
    destruct (order_guard _ _ _); try discriminate;
    destruct (negb (bool_decide _)); try discriminate;
    try (intros [= <-]; apply simplified_node; [reflexivity | exact Htarget]).
  destruct op;
    try (intros [= <-]; apply simplified_node; [reflexivity | exact Htarget]).
  - case_bool_decide as Hdropped.
    + intros Hfolded. exact (IH _ _ (simplified_target _ _ _ _ Htarget) Hfolded).
    + intros [= <-]. apply simplified_node; [| exact Htarget].
      apply bool_decide_eq_false_2. intros Hout. exact (Hout Hdropped).
  - intros Hfolded. exact (IH _ _ (simplified_target _ _ _ _ Htarget) Hfolded).
Qed.

Lemma Sort_apply_here_simplified (target : Relation) :
  forall (terms : list SortTerm) (lock : bool) (result : Relation),
    simplified target = true ->
    Sort_apply_here terms target lock = Ok result ->
    simplified result = true.
Proof.
  induction target as [| op target IH cols locked | op lhs IHl rhs IHr cols locked];
    intros terms lock result Htarget;
    (destruct (decide (terms = [])) as [-> | Hterms];
     [destruct lock; simpl; intros [= <-]; exact Htarget |]);
    rewrite Sort_apply_here_unfold by exact Hterms;
    destruct (check_sort_terms terms _) as [[] |]; simpl; try discriminate;
    try (intros [= <-];
         apply (simplified_node (Sort terms)); [reflexivity | exact Htarget]).
  destruct op;
    try (intros [= <-];
         apply (simplified_node (Sort terms)); [reflexivity | exact Htarget]).
  intros Hmerged. exact (IH _ _ _ (simplified_target _ _ _ _ Htarget) Hmerged).
Qed.

(** X11: [apply] never stacks what it can merge: applied with default
    arguments to a tree in which no projection sits on a projection or
    on a calculation whose column it drops, and no selection, slice or
    sort sits on one of its kind, every operation of [_operations/]
    returns such a tree. *)
Theorem apply_never_stacks_what_it_merges (operation : UnaryOperation)
    (target result : Relation)
    (Htarget : simplified target = true)
    (Hresult : apply_operation operation target = Ok result) :
  simplified result = true.
Proof.
  destruct operation
    as [tag expr | unique_key | cols | pred | start stop | terms | name
        | destination |];
    unfold apply_operation in Hresult.
  - unfold Calculation_apply_here in Hresult.
    apply bind_Ok in Hresult as (target' & Hg & Hresult).
    apply guard_Ok in Hg as [-> _].
    apply bind_Ok in Hresult as (_ & _ & Hresult).
    unfold Calculation_finish in Hresult.
    destruct (negb _) in Hresult; [discriminate |].
    injection Hresult as <-. apply simplified_node; [reflexivity | exact Htarget].
  - apply Deduplication_apply_here_node in Hresult as (key & -> & _).
    apply (simplified_node (Deduplication (Some key)) target false);
      [reflexivity | exact Htarget].
  - rewrite Projection_apply_defaults in Hresult.
    exact (Projection_apply_default_simplified _ _ _ Htarget Hresult).
  - rewrite Selection_apply_defaults in Hresult.
    exact (Selection_apply_default_simplified _ _ _ Htarget Hresult).
  - injection Hresult as <-. apply Slice_apply_simplified, Htarget.
  - exact (Sort_apply_here_simplified _ _ _ _ Htarget Hresult).
  - apply Materialization_apply_Ok in Hresult as [[_ ->] | [_ ->]];
      [exact Htarget |].
    apply (simplified_node (Materialization _) target true);
      [reflexivity | exact Htarget].
  - unfold Transfer_apply in Hresult.
    case_bool_decide as Hengine; [injection Hresult as <-; exact Htarget |].
    apply bind_Ok in Hresult as (target' & Hg & Hresult).
    apply guard_Ok in Hg as [-> _].
    injection Hresult as <-. apply simplified_node; [reflexivity | exact Htarget].
  - injection Hresult as <-. exact Htarget.
Qed.

(** ** Deduplication, Transfer and Materialization *)

(** X12: [Deduplication.apply] with no preferred engine always builds a new
    node on its target, which is never locked, whatever [lock] says;
    the operation of the node has a key: the one given to [apply], or,
    for [unique_key=None], the key columns of the target, each of them
    once and in some order. *)
Theorem deduplication_apply_builds_an_unlocked_node
    (unique_key : option (list ColumnTag)) (target : Relation) (lock : bool)
    (result : Relation)
    (Hresult : Deduplication_apply_here unique_key target lock false
               = Ok result) :
  exists key : list ColumnTag,
    result = UnaryOperationRelation (Deduplication (Some key)) target
               (columns target) false
    /\ match unique_key with
       | Some given => key = given
       | None =>
           key <> [] /\ NoDup key
           /\ forall tag, tag ∈ key <-> tag ∈ columns target /\ is_key tag = true
       end.
Proof.
  apply Deduplication_apply_here_node in Hresult as (key & -> & Hkey).
  exists key. split; [reflexivity |].
  destruct unique_key as [given |]; [exact Hkey |].
  unfold Deduplication_applied_unique_key in Hkey.
  destruct (filter _ _) as [| first others] eqn:Hfilter; [discriminate |].
  injection Hkey as <-. rewrite <- Hfilter.
  split; [rewrite Hfilter; discriminate |].
  split; [apply NoDup_filter, NoDup_elements |].
  intros tag. rewrite list_elem_of_filter, elem_of_elements. tauto.
Qed.

(** X13: [Transfer.apply] returns a relation in the destination engine,
    the target itself when it is there already and a transfer node on
    the target otherwise; applying the transfer to its result again
    returns the result, whatever [lock] and [strip_ordering]. *)
Theorem transfer_apply_is_idempotent (destination : Engine)
    (target : Relation) (lock : bool) (result : Relation)
    (Hresult : Transfer_apply destination target lock false = Ok result) :
  engine result = destination
  /\ result = (if bool_decide (engine target = destination) then target
               else UnaryOperationRelation (Transfer destination) target
                      (columns target) lock)
  /\ forall lock' strip_ordering : bool,
       Transfer_apply destination result lock' strip_ordering = Ok result.
Proof.
  assert (engine result = destination
          /\ result = (if bool_decide (engine target = destination) then target
                       else UnaryOperationRelation (Transfer destination) target
                              (columns target) lock)) as [Hengine Hshape].
  { unfold Transfer_apply in Hresult.
    case_bool_decide as Hengine; [injection Hresult as <-; auto |].
    apply bind_Ok in Hresult as (target' & Hg & Hresult).
    apply guard_Ok in Hg as [-> _].
    injection Hresult as <-. auto. }
  split; [exact Hengine |]. split; [exact Hshape |].
  intros lock' strip_ordering. unfold Transfer_apply.
  rewrite bool_decide_eq_true_2 by exact Hengine. reflexivity.
Qed.

(** X14: [Materialization.apply] returns a leaf or a materialization node:
    the target itself when it is one, and otherwise a node on the
    target that has a name, the one given or one made by the engine
    from the prefix; applying any materialization to the result again
    returns the result. *)
Theorem materialization_apply_is_idempotent (name : option string)
    (target : Relation) (name_prefix : string) (lock : bool)
    (result : Relation)
    (Hresult : Materialization_apply name target name_prefix lock false
               = Ok result) :
  materialized result = true
  /\ result
     = (if materialized target then target
        else UnaryOperationRelation
               (Materialization
                  (Some (default (get_relation_name (engine target) name_prefix)
                           name)))
               target (columns target) lock)
  /\ forall (name' : option string) (name_prefix' : string)
            (lock' strip_ordering : bool),
       Materialization_apply name' result name_prefix' lock' strip_ordering
       = Ok result.
Proof.
  assert (materialized result = true
          /\ result
             = (if materialized target then target
                else UnaryOperationRelation
                       (Materialization
                          (Some (default (get_relation_name (engine target)
                                            name_prefix) name)))
                       target (columns target) lock)) as [Hmaterialized Hshape].
  { apply Materialization_apply_Ok in Hresult as [[Hm ->] | [Hm ->]];
      rewrite Hm; auto. }
  split; [exact Hmaterialized |]. split; [exact Hshape |].
  intros name' name_prefix' lock' strip_ordering.
  destruct result as [| op nested cols locked |]; try discriminate;
    [reflexivity |].
  destruct op; try discriminate. reflexivity.
Qed.

(** ** The preferred engine *)

Lemma engine_occurs_root (r : Relation) :
  engine_occurs (engine r) r = true.
Proof.
  destruct r; cbn [engine_occurs];
    rewrite bool_decide_eq_true_2 by reflexivity; reflexivity.
Qed.

Lemma engine_occurs_unary (e : Engine) (operation : UnaryOperation)
    (target : Relation) (cols : Columns) (locked : bool) :
  engine_occurs e target = true ->
  engine_occurs e (UnaryOperationRelation operation target cols locked) = true.
Proof. intros Htarget. cbn [engine_occurs]. rewrite Htarget. apply orb_true_r. Qed.

Lemma engine_occurs_lhs (e : Engine) (operation : BinaryOperation)
    (lhs rhs : Relation) (cols : Columns) (locked : bool) :
  engine_occurs e lhs = true ->
  engine_occurs e (BinaryOperationRelation operation lhs rhs cols locked) = true.
Proof. intros Hlhs. cbn [engine_occurs]. rewrite Hlhs. apply orb_true_r. Qed.

Lemma engine_occurs_rhs (e : Engine) (operation : BinaryOperation)
    (lhs rhs : Relation) (cols : Columns) (locked : bool) :
  engine_occurs e rhs = true ->
  engine_occurs e (BinaryOperationRelation operation lhs rhs cols locked) = true.
Proof.
  intros Hrhs. cbn [engine_occurs]. rewrite Hrhs, orb_true_r. apply orb_true_r.
Qed.

Lemma Selection_insert_recursive_engine (pred : Predicate)
    (preferred_engine : Engine) (lock : bool) (target : Relation) :
  forall result : Relation,
    Selection_insert_recursive pred target preferred_engine lock
    = Ok (Some result) ->
    engine_occurs preferred_engine target = true.
Proof.
  induction target as [| op target IH cols locked | op lhs IHl rhs IHr cols locked];
    intros result Hfound.
  - discriminate.
  - cbn [Selection_insert_recursive is_locked] in Hfound.
    destruct locked; [discriminate |].
    destruct (is_count_dependent op); [discriminate |].
    destruct (_ && _) in Hfound; [discriminate |].
    destruct (negb _) in Hfound; [discriminate |].
    apply engine_occurs_unary.
    case_bool_decide as Hengine; [rewrite <- Hengine; apply engine_occurs_root |].
    apply bind_Ok in Hfound as (new_target & Hnew & Hfound).
    apply reapply_Ok in Hfound as (inner & -> & _).
    exact (IH _ Hnew).
  - destruct op as [join_predicate min_columns max_columns |];
      cbn [Selection_insert_recursive is_locked] in Hfound;
      (destruct locked; [discriminate |]);
      apply bind_Ok in Hfound as (new_lhs & Hlhs & Hfound);
      apply bind_Ok in Hfound as (new_rhs & Hrhs & Hfound).
    + destruct new_lhs as [new_lhs |].
      * clear Hrhs. destruct (bool_decide _) in Hlhs; [| discriminate].
        apply engine_occurs_lhs. exact (IHl _ Hlhs).
      * destruct new_rhs as [new_rhs |]; [| discriminate].
        clear Hlhs. destruct (bool_decide _) in Hrhs; [| discriminate].
        apply engine_occurs_rhs. exact (IHr _ Hrhs).
    + destruct new_lhs as [new_lhs |]; [| discriminate].
      apply engine_occurs_lhs. exact (IHl _ Hlhs).
Qed.

Lemma Calculation_insert_recursive_engine (tag : ColumnTag)
    (expr : ColumnExpression) (preferred_engine : Engine) (lock : bool)
    (target : Relation) :
  forall result : Relation,
    Calculation_insert_recursive tag expr target preferred_engine lock
    = Ok (Some result) ->
    engine_occurs preferred_engine target = true.
Proof.
  induction target as [| op target IH cols locked | op lhs IHl rhs IHr cols locked];
    intros result Hfound.
  - discriminate.
  - cbn [Calculation_insert_recursive is_locked] in Hfound.
    destruct locked; [discriminate |].
    destruct (negb _) in Hfound; [discriminate |].
    destruct (_ && _) in Hfound; [discriminate |].
    apply engine_occurs_unary.
    case_bool_decide as Hengine; [rewrite <- Hengine; apply engine_occurs_root |].
    apply bind_Ok in Hfound as (new_target & Hnew & Hfound).
    apply reapply_Ok in Hfound as (inner & -> & _).
    exact (IH _ Hnew).
  - destruct op as [join_predicate min_columns max_columns |];
      cbn [Calculation_insert_recursive is_locked] in Hfound;
      (destruct locked; [discriminate |]);
      apply bind_Ok in Hfound as (new_lhs & Hlhs & Hfound).
    + destruct new_lhs as [new_lhs |].
      * destruct (bool_decide _) in Hlhs; [| discriminate].
        apply engine_occurs_lhs. exact (IHl _ Hlhs).
      * apply bind_Ok in Hfound as (new_rhs & Hrhs & Hfound).
        destruct new_rhs as [new_rhs |]; [| discriminate].
        clear Hlhs. destruct (bool_decide _) in Hrhs; [| discriminate].
        apply engine_occurs_rhs. exact (IHr _ Hrhs).
    + destruct new_lhs as [new_lhs |].
      * apply engine_occurs_lhs. exact (IHl _ Hlhs).
      * apply bind_Ok in Hfound as (new_rhs & _ & Hfound).
        destruct new_rhs; discriminate.
Qed.

Lemma Sort_insert_recursive_engine (terms : list SortTerm)
    (preferred_engine : Engine) (lock : bool) (target : Relation) :
  forall result : Relation,
    Sort_insert_recursive terms target preferred_engine lock
    = Ok (Some result) ->
    engine_occurs preferred_engine target = true.
Proof.
  induction target as [| op target IH cols locked | op lhs IHl rhs IHr cols locked];
    intros result Hfound.
  - discriminate.
  - cbn [Sort_insert_recursive is_locked] in Hfound.
    destruct locked; [discriminate |].
    destruct (negb _) in Hfound; [discriminate |].
    destruct (is_order_dependent op); [discriminate |].
    apply engine_occurs_unary.
    case_bool_decide as Hengine; [rewrite <- Hengine; apply engine_occurs_root |].
    apply bind_Ok in Hfound as (new_target & Hnew & Hfound).
    apply reapply_Ok in Hfound as (inner & -> & _).
    exact (IH _ Hnew).
  - cbn [Sort_insert_recursive is_locked] in Hfound.
    destruct locked; discriminate.
Qed.

Lemma reach_required_engine
    (insert_recursive : Relation -> Engine -> Result (option Relation))
    (target : Relation) (preferred : Engine) (backtrack : bool)
    (placement : Placement) :
  reach_preferred_engine insert_recursive target (Some preferred)
    backtrack false true = Ok placement ->
  engine target = preferred
  \/ exists found, insert_recursive target preferred = Ok (Some found).
Proof.
  unfold reach_preferred_engine. intros Hreach.
  case_bool_decide as Hengine; [| left; congruence].
  right. apply bind_Ok in Hreach as (found & Hfound & Hreach).
  destruct found as [found |]; [| discriminate].
  exists found. destruct backtrack; congruence.
Qed.

(** X15: [require_preferred_engine=True] without [transfer] is honoured by
    [Selection.apply], [Calculation.apply] and [Sort.apply]: when the
    tree holds no relation of the preferred engine, no relation is
    returned.  The only calls that return are those that leave the
    target as it is, for a trivially true predicate and for an empty
    list of sort terms. *)
Theorem required_engine_must_occur_in_the_tree (target : Relation)
    (preferred : Engine) (backtrack lock : bool) (result : Relation)
    (Habsent : engine_occurs preferred target = false) :
  (forall pred,
      Selection_apply pred target (Some preferred) backtrack false true lock false
      = Ok result ->
      as_trivial pred = Some true /\ result = target)
  /\ (forall tag expr,
         Calculation_apply tag expr target (Some preferred) backtrack false true
           lock false <> Ok result)
  /\ (forall terms,
         Sort_apply terms target (Some preferred) backtrack false true lock
         = Ok result ->
         terms = [] /\ result = target).
Proof.
  assert (engine target <> preferred) as Hroot.
  { intros <-. rewrite engine_occurs_root in Habsent. discriminate. }
  split; [| split].
  - intros pred Hresult. unfold Selection_apply in Hresult.
    case_bool_decide as Htrivial; [split; congruence |].
    destruct (negb _) in Hresult; [discriminate |].
    apply bind_Ok in Hresult as (target' & Hg & Hresult).
    apply guard_Ok in Hg as [-> _].
    apply bind_Ok in Hresult as (placement & Hreach & _).
    apply reach_required_engine in Hreach as [Hengine | [found Hfound]];
      [contradiction |].
    apply Selection_insert_recursive_engine in Hfound. congruence.
  - intros tag expr Hresult. unfold Calculation_apply in Hresult.
    apply bind_Ok in Hresult as (target' & Hg & Hresult).
    apply guard_Ok in Hg as [-> _].
    apply bind_Ok in Hresult as (_ & _ & Hresult).
    apply bind_Ok in Hresult as (placement & Hreach & _).
    apply reach_required_engine in Hreach as [Hengine | [found Hfound]];
      [contradiction |].
    apply Calculation_insert_recursive_engine in Hfound. congruence.
  - intros terms Hresult. unfold Sort_apply in Hresult.
    destruct terms as [| term terms]; [split; congruence |].
    apply bind_Ok in Hresult as (placement & Hreach & _).
    apply reach_required_engine in Hreach as [Hengine | [found Hfound]];
      [contradiction |].
    apply Sort_insert_recursive_engine in Hfound. congruence.
Qed.

Lemma reach_by_transfer
    (insert_recursive : Relation -> Engine -> Result (option Relation))
    (target : Relation) (preferred : Engine)
    (require_preferred_engine : bool) (placement : Placement) :
  reach_preferred_engine insert_recursive target (Some preferred)
    false true require_preferred_engine = Ok placement ->
  exists current,
    placement = GoOn current
    /\ Transfer_apply preferred target false false = Ok current.
Proof.
  unfold reach_preferred_engine. intros Hreach.
  case_bool_decide as Hengine.
  - apply bind_Ok in Hreach as (found & [= <-] & Hreach).
    apply bind_Ok in Hreach as (moved & Hmoved & [= <-]). eauto.
  - injection Hreach as <-. exists target. split; [reflexivity |].
    unfold Transfer_apply. rewrite bool_decide_eq_true_2 by congruence.
    reflexivity.
Qed.

(** X16: with [transfer=True] and [backtrack=False] the operation is applied
    to the transfer of the target to the preferred engine (the target
    itself when it is there already): whenever [Calculation.apply],
    [Deduplication.apply], [Selection.apply] with a predicate that is
    not trivially true, or [Sort.apply] with terms, returns on a
    well-formed tree, the result is in the preferred engine. *)
Theorem transfer_puts_the_operation_in_the_preferred_engine
    (target : Relation) (preferred : Engine)
    (require_preferred_engine lock : bool) (result : Relation)
    (Htarget : consistent target) :
  (forall tag expr,
      Calculation_apply tag expr target (Some preferred) false true
        require_preferred_engine lock false = Ok result ->
      engine result = preferred)
  /\ (forall unique_key,
         Deduplication_apply unique_key target (Some preferred) false true
           require_preferred_engine lock false = Ok result ->
         engine result = preferred)
  /\ (forall pred,
         as_trivial pred <> Some true ->
         Selection_apply pred target (Some preferred) false true
           require_preferred_engine lock false = Ok result ->
         engine result = preferred)
  /\ (forall terms,
         terms <> [] ->
         Sort_apply terms target (Some preferred) false true
           require_preferred_engine lock = Ok result ->
         engine result = preferred).
Proof.
  assert (forall (insert_recursive : Relation -> Engine -> Result (option Relation))
                 (operation : UnaryOperation) (finish : Relation -> Result Relation)
                 (placement : Placement),
             (forall current found,
                 consistent current -> finish current = Ok found ->
                 as_declared operation current found) ->
             applied_engine operation = applied_engine Identity ->
             reach_preferred_engine insert_recursive target (Some preferred)
               false true require_preferred_engine = Ok placement ->
             match placement with
             | Inserted found => Ok found
             | GoOn current => finish current
             end = Ok result ->
             engine result = preferred) as Hplaced.
  { intros insert_recursive operation finish placement Hfinish Hsame Hreach Hresult.
    apply reach_by_transfer in Hreach as (current & -> & Hmoved).
    apply Transfer_apply_as_declared in Hmoved as (Hcurrent & _ & Hengine & _);
      [| exact Htarget].
    destruct (Hfinish _ _ Hcurrent Hresult) as (_ & _ & Hfound & _).
    rewrite Hfound, Hsame. exact Hengine. }
  split; [| split; [| split]].
  - intros tag expr Hresult. unfold Calculation_apply in Hresult.
    apply bind_Ok in Hresult as (target' & Hg & Hresult).
    apply guard_Ok in Hg as [-> _].
    apply bind_Ok in Hresult as (_ & _ & Hresult).
    apply bind_Ok in Hresult as (placement & Hreach & Hresult).
    refine (Hplaced _ (Calculation tag expr)
              (fun current => Calculation_finish tag expr current lock)
              _ _ eq_refl Hreach Hresult).
    intros current found. apply Calculation_finish_as_declared.
  - assert (forall key,
               Deduplication_apply_with_key key target (Some preferred) false
                 true require_preferred_engine lock false = Ok result ->
               engine result = preferred) as Hwith_key.
    { intros key Hkey. unfold Deduplication_apply_with_key in Hkey.
      apply bind_Ok in Hkey as (target' & Hg & Hkey).
      apply guard_Ok in Hg as [-> _].
      apply bind_Ok in Hkey as (placement & Hreach & Hkey).
      refine (Hplaced _ (Deduplication (Some key))
                (fun current =>
                   Ok (UnaryOperation_apply (Deduplication (Some key))
                         current false))
                _ _ eq_refl Hreach Hkey).
      intros current found Hcurrent [= <-]. repeat split; auto. }
    intros unique_key Hresult. unfold Deduplication_apply in Hresult.
    destruct unique_key as [key |]; [exact (Hwith_key key Hresult) |].
    apply bind_Ok in Hresult as (target' & Hg & Hresult).
    apply guard_Ok in Hg as [-> _].
    apply bind_Ok in Hresult as (key & _ & Hresult).
    exact (Hwith_key key Hresult).
  - intros pred Hkept Hresult. unfold Selection_apply in Hresult.
    rewrite bool_decide_eq_false_2 in Hresult by exact Hkept.
    destruct (negb _) in Hresult; [discriminate |].
    apply bind_Ok in Hresult as (target' & Hg & Hresult).
    apply guard_Ok in Hg as [-> _].
    apply bind_Ok in Hresult as (placement & Hreach & Hresult).
    refine (Hplaced _ (Selection pred)
              (fun current => Selection_finish pred current lock)
              _ _ eq_refl Hreach Hresult).
    intros current found. apply Selection_finish_as_declared.
  - intros terms Hterms Hresult. unfold Sort_apply in Hresult.
    destruct terms as [| term terms]; [congruence |].
    apply bind_Ok in Hresult as (placement & Hreach & Hresult).
    refine (Hplaced _ (Sort (term :: terms))
              (fun current => Sort_apply_here (term :: terms) current lock)
              _ _ eq_refl Hreach Hresult).
    intros current found. apply Sort_apply_here_as_declared.
Qed.

(** ** Partial joins *)

Lemma union_swap (X Y Z : Columns) : X ∪ Z ∪ Y = X ∪ Y ∪ Z.
Proof. apply set_eq. intros x. rewrite !elem_of_union. tauto. Qed.

Lemma PartialJoin_applied_columns_union (self : PartialJoin)
    (target : Relation) :
  PartialJoin_applied_columns self target
  = columns target ∪ columns (fixed self).
Proof.
  unfold PartialJoin_applied_columns. destruct (fixed_is_lhs self); simpl;
    [apply (comm_L (∪)) | reflexivity].
Qed.

Lemma PartialJoin_join_attributes (self : PartialJoin) (target : Relation)
    (lock : bool) (result : Relation) :
  PartialJoin_join self target lock false = Ok result ->
  columns result = columns target ∪ columns (fixed self)
  /\ engine result = engine (fixed self)
  /\ engine result = engine target
  /\ (consistent (fixed self) -> consistent target -> consistent result).
Proof.
  unfold PartialJoin_join. intros Hresult.
  destruct (fixed_is_lhs self);
    apply Join_apply_attributes in Hresult
      as (Hengines & _ & Hcolumns & Hengine & _ & Hconsistent).
  - rewrite Hcolumns, Hengine. repeat split; auto. apply (comm_L (∪)).
  - rewrite Hcolumns, Hengine. repeat split; auto.
Qed.

Lemma rebuilt_unary_join (added : Columns) (operation : UnaryOperation)
    (next_target inner result : Relation) (cols : Columns) (locked : bool) :
  consistent (UnaryOperationRelation operation next_target cols locked) ->
  consistent inner ->
  columns inner = columns next_target ∪ added ->
  engine inner = engine next_target ->
  apply_operation
    match operation with
    | Projection _ => Projection (cols ∪ added)
    | _ => operation
    end inner = Ok result ->
  consistent result
  /\ columns result = cols ∪ added
  /\ engine result
     = engine (UnaryOperationRelation operation next_target cols locked).
Proof.
  intros [-> Hnext] Hinner Hc He Hresult.
  apply apply_operation_as_declared in Hresult as (Hr & Hrc & Hre & _);
    [| exact Hinner].
  unfold applied_engine in Hre.
  repeat split; [exact Hr | |].
  - rewrite Hrc.
    destruct operation; simpl; rewrite ?Hc; try reflexivity.
    apply union_swap.
  - rewrite Hre. destruct operation; simpl; rewrite ?He; reflexivity.
Qed.

Lemma PartialJoin_insert_recursive_joined (self : PartialJoin) (lock : bool)
    (target : Relation) :
  forall result : Relation,
    consistent (fixed self) ->
    consistent target ->
    PartialJoin_insert_recursive self target lock = Ok (Some result) ->
    consistent result
    /\ columns result = columns target ∪ columns (fixed self)
    /\ engine result = engine target.
Proof.
  induction target as [| op target IH cols locked | op lhs IHl rhs IHr cols locked];
    intros result Hfixed Htarget Hfound.
  - cbn [PartialJoin_insert_recursive is_locked] in Hfound.
    apply bind_Ok in Hfound as (_ & _ & Hfound). discriminate.
  - pose proof (proj2 Htarget) as Hnext.
    assert (exists inner,
               (consistent inner
                /\ columns inner = columns target ∪ columns (fixed self)
                /\ engine inner = engine target)
               /\ apply_operation
                    match op with
                    | Projection _ => Projection (cols ∪ columns (fixed self))
                    | _ => op
                    end inner = Ok result)
      as (inner & (Hinner & Hc & He) & Hresult).
    { destruct op;
        cbn [PartialJoin_insert_recursive is_locked] in Hfound;
        apply bind_Ok in Hfound as (_ & _ & Hfound);
        (destruct locked; [discriminate |]);
        try discriminate;
        rewrite ?PartialJoin_applied_columns_union in Hfound;
        cbn [columns] in Hfound;
        (destruct (is_order_dependent _); [discriminate |]);
        (destruct (is_count_dependent _); [discriminate |]);
        (destruct (negb _) in Hfound; [discriminate |]);
        (case_bool_decide as Hengine;
         [ apply bind_Ok in Hfound as (inner & Hinner & Hfound);
           apply reapply_Ok in Hfound as (inner' & [= <-] & Hresult);
           exists inner; split; [| exact Hresult];
           unfold PartialJoin_apply_here in Hinner;
           (destruct (negb _) in Hinner; [discriminate |]);
           apply PartialJoin_join_attributes in Hinner
             as (Hc & _ & He & Hconsistent);
           auto
         | apply bind_Ok in Hfound as (new_target & Hnew & Hfound);
           apply reapply_Ok in Hfound as (inner & -> & Hresult);
           exists inner; split; [| exact Hresult];
           exact (IH _ Hfixed Hnext Hnew) ]). }
    exact (rebuilt_unary_join _ _ _ _ _ _ _ Htarget Hinner Hc He Hresult).
  - pose proof (proj1 (proj2 Htarget)) as Hl.
    pose proof (proj2 (proj2 Htarget)) as Hr.
    destruct op as [join_predicate min_columns max_columns |];
      cbn [PartialJoin_insert_recursive is_locked] in Hfound;
      apply bind_Ok in Hfound as (_ & _ & Hfound);
      (destruct locked; [discriminate |]);
      apply bind_Ok in Hfound as (new_lhs & Hlhs & Hfound);
      destruct Htarget as (-> & _ & _).
    + destruct new_lhs as [new_lhs |].
      * destruct (bool_decide _) in Hlhs; [| discriminate].
        destruct (IHl _ Hfixed Hl Hlhs) as (Hnl & Hlc & Hle).
        apply bind_Ok in Hfound as (found & Hfound & [= <-]).
        unfold apply_binary_operation in Hfound.
        apply Join_apply_attributes in Hfound as (_ & _ & Hc & He & _ & Hcons).
        repeat split; [auto | |].
        -- rewrite Hc, Hlc. exact (union_swap _ _ _).
        -- rewrite He. exact Hle.
      * apply bind_Ok in Hfound as (new_rhs & Hrhs & Hfound).
        destruct new_rhs as [new_rhs |]; [| discriminate].
        clear Hlhs. destruct (bool_decide _) in Hrhs; [| discriminate].
        destruct (IHr _ Hfixed Hr Hrhs) as (Hnr & Hrc & Hre).
        apply bind_Ok in Hfound as (found & Hfound & [= <-]).
        unfold apply_binary_operation in Hfound.
        apply Join_apply_attributes in Hfound as (_ & _ & Hc & He & _ & Hcons).
        repeat split; [auto | |].
        -- rewrite Hc, Hrc. exact (assoc_L (∪) _ _ _).
        -- exact He.
    + apply bind_Ok in Hfound as (new_rhs & Hrhs & Hfound).
      destruct new_lhs as [new_lhs |], new_rhs as [new_rhs |]; try discriminate.
      apply bind_Ok in Hfound as (found & Hfound & [= <-]).
      destruct (IHl _ Hfixed Hl Hlhs) as (Hnl & Hlc & Hle).
      destruct (IHr _ Hfixed Hr Hrhs) as (Hnr & Hrc & Hre).
      unfold apply_binary_operation in Hfound.
      apply Chain_apply_node in Hfound as (_ & _ & ->).
      repeat split; auto.
Qed.

Lemma PartialJoin_apply_resolved_joined (self : PartialJoin)
    (target : Relation) (backtrack transfer lock : bool) (result : Relation) :
  consistent (fixed self) ->
  consistent target ->
  PartialJoin_apply_resolved self target backtrack transfer false lock
  = Ok result ->
  consistent result
  /\ columns result = columns target ∪ columns (fixed self)
  /\ (engine result = engine target
      \/ (transfer = true /\ engine result = engine (fixed self))).
Proof.
  intros Hfixed Htarget Hresult. unfold PartialJoin_apply_resolved in Hresult.
  destruct (negb _) in Hresult; [discriminate |].
  apply bind_Ok in Hresult as (placement & Hplacement & Hresult).
  case_bool_decide as Hengine.
  - apply bind_Ok in Hplacement as (found & Hfound & Hplacement).
    destruct found as [found |].
    + injection Hplacement as <-. injection Hresult as <-.
      destruct backtrack; [| discriminate].
      destruct (PartialJoin_insert_recursive_joined _ _ _ _ Hfixed Htarget Hfound)
        as (Hr & Hc & He).
      auto.
    + destruct transfer; [| discriminate].
      apply bind_Ok in Hplacement as (moved & Hmoved & [= <-]).
      apply Transfer_apply_as_declared in Hmoved as (Hmv & Hmc & _ & _);
        [| exact Htarget].
      apply PartialJoin_join_attributes in Hresult as (Hc & He & _ & Hconsistent).
      rewrite Hc, Hmc. auto.
  - injection Hplacement as <-.
    apply PartialJoin_join_attributes in Hresult as (Hc & _ & He & Hconsistent).
    auto.
Qed.

(** X17: [PartialJoin.apply] with [strip_ordering=False], on well-formed
    trees: whether the join is made on the spot, pushed upstream of
    unary operations, into a branch of a join or into both branches of
    a chain by [_insert_recursive], or made after a transfer of the
    target, the tree returned is well-formed and has the columns of
    the target and of the fixed relation; it has the engine of the
    target, or that of the fixed relation when [transfer] is set.
    When the common columns of the join are not resolved, [lock] and
    [strip_ordering] are not passed on: the result is the same
    whatever they are. *)
Theorem partial_join_apply_joins_the_columns (self : PartialJoin)
    (target : Relation) (backtrack transfer lock : bool) (result : Relation)
    (Hfixed : consistent (fixed self))
    (Htarget : consistent target)
    (Hresult : PartialJoin_apply self target backtrack transfer false lock
               = Ok result) :
  consistent result
  /\ columns result = columns target ∪ columns (fixed self)
  /\ (engine result = engine target
      \/ (transfer = true /\ engine result = engine (fixed self)))
  /\ (binary_max_columns self <> Some (binary_min_columns self) ->
      forall strip_ordering' lock' : bool,
        PartialJoin_apply self target backtrack transfer strip_ordering' lock'
        = Ok result).
Proof.
  unfold PartialJoin_apply in Hresult |- *.
  case_bool_decide as Hresolved.
  - apply bind_Ok in Hresult as (common & Hcommon & Hresult).
    pose proof (PartialJoin_apply_resolved_joined
                  (mkPartialJoin (binary_predicate self) common (Some common)
                     (fixed self) (fixed_is_lhs self))
                  _ _ _ _ _ Hfixed Htarget Hresult) as (Hr & Hc & He).
    repeat split; auto.
    intros _ strip_ordering' lock'. rewrite Hcommon. exact Hresult.
  - pose proof (PartialJoin_apply_resolved_joined _ _ _ _ _ _ Hfixed Htarget
                  Hresult) as (Hr & Hc & He).
    repeat split; auto. intros Hunresolved. contradiction.
Qed.

(** X18: a partial join made by [Join.partial] (with
    [strip_ordering=False]) from a join with resolved common columns
    needs no column test but its own: on a target that has its
    [columns_required], the [Join.apply] that ends [PartialJoin.apply]
    does not raise [ColumnError], whichever side the fixed relation is
    on. *)
Theorem partial_join_needs_no_other_column_test (predicate : Predicate)
    (common : Columns) (fix_ : Relation) (is_lhs : bool) (self : PartialJoin)
    (target : Relation) (lock strip_ordering : bool)
    (Hpartial : Join_partial predicate common (Some common) fix_ is_lhs false
                = Ok self)
    (Hcolumns : PartialJoin_columns_required self ⊆ columns target) :
  PartialJoin_join self target lock strip_ordering <> Raise ColumnError.
Proof.
  unfold Join_partial in Hpartial.
  case_bool_decide as Hfix; [| discriminate].
  apply bind_Ok in Hpartial as (fix' & Hkept & [= <-]).
  apply expect_unordered_keeps in Hkept as ->.
  unfold PartialJoin_columns_required in Hcolumns. simpl in Hcolumns.
  assert (common ⊆ columns target) as Hcommon.
  { intros tag Htag. apply Hcolumns, elem_of_union. right. exact Htag. }
  assert (predicate_columns_required predicate ⊆ columns fix_ ∪ columns target)
    as Hpredicate.
  { intros tag Htag. apply elem_of_union.
    destruct (decide (tag ∈ columns fix_)) as [Hin | Hout]; [left; exact Hin |].
    right. apply Hcolumns, elem_of_union. left.
    apply elem_of_difference. auto. }
  assert (forall lhs rhs,
             predicate_columns_required predicate ⊆ columns lhs ∪ columns rhs ->
             common ⊆ columns lhs ->
             Join_apply predicate common (Some common) lhs rhs lock strip_ordering
             <> Raise ColumnError) as Hjoin.
  { intros lhs rhs Hp Hc. unfold Join_apply.
    case_bool_decide; [discriminate |].
    destruct (negb (predicate_is_supported_by _ _)); [discriminate |].
    rewrite (bool_decide_eq_true_2 _ Hp).
    rewrite (bool_decide_eq_false_2 (Some common ≠ Some common))
      by (intros Hne; apply Hne; reflexivity).
    unfold common_columns. rewrite bool_decide_eq_true_2 by reflexivity.
    simpl. rewrite (bool_decide_eq_true_2 _ Hc). simpl.
    unfold expect_unordered.
    destruct strip_ordering; simpl.
    - destruct (is_join_identity _); [discriminate |].
      destruct (is_join_identity _); discriminate.
    - destruct (is_ordered lhs); [discriminate |]. simpl.
      destruct (is_ordered rhs); [discriminate |]. simpl.
      destruct (is_join_identity _); [discriminate |].
      destruct (is_join_identity _); discriminate. }
  unfold PartialJoin_join. simpl. destruct is_lhs.
  - apply Hjoin; assumption.
  - apply Hjoin; [| exact Hcommon].
    intros tag Htag. apply Hpredicate in Htag.
    apply elem_of_union in Htag as [Htag | Htag]; apply elem_of_union; auto.
Qed.

Lemma PartialJoin_join_declared (self : PartialJoin) (target : Relation)
    (lock : bool) (result : Relation) :
  PartialJoin_join self target lock false = Ok result ->
  columns result = PartialJoin_applied_columns self target
  /\ engine result = PartialJoin_applied_engine self target
  /\ max_rows result = PartialJoin_applied_max_rows self target.
Proof.
  unfold PartialJoin_join, PartialJoin_applied_columns,
    PartialJoin_applied_engine, PartialJoin_applied_max_rows.
  intros Hresult.
  destruct (fixed_is_lhs self);
    apply Join_apply_attributes in Hresult
      as (_ & _ & Hcolumns & Hengine & Hmax & _);
    auto.
Qed.

(** X19: when the target is in the engine of the fixed relation,
    [PartialJoin.apply] (with [strip_ordering=False]) makes the join on
    the spot, and the relation it returns (the join node, or one of the
    two relations when the other is a join identity) has the columns,
    the engine and the [max_rows] that [PartialJoin.applied_columns],
    [applied_engine] and [applied_max_rows] declare, whether the common
    columns were resolved or not. *)
Theorem partial_join_apply_returns_what_it_declares (self : PartialJoin)
    (target : Relation) (backtrack transfer lock : bool) (result : Relation)
    (Hengine : engine target = engine (fixed self))
    (Hresult : PartialJoin_apply self target backtrack transfer false lock
               = Ok result) :
  columns result = PartialJoin_applied_columns self target
  /\ engine result = PartialJoin_applied_engine self target
  /\ max_rows result = PartialJoin_applied_max_rows self target.
Proof.
  assert (forall (replaced : PartialJoin) (lock' : bool),
             fixed replaced = fixed self ->
             PartialJoin_apply_resolved replaced target backtrack transfer
               false lock' = Ok result ->
             exists lock'', PartialJoin_join replaced target lock'' false
                            = Ok result) as Hspot.
  { intros replaced lock' Hsame Hreplaced.
    unfold PartialJoin_apply_resolved in Hreplaced.
    destruct (negb _) in Hreplaced; [discriminate |].
    rewrite bool_decide_eq_false_2 in Hreplaced
      by (rewrite Hsame; intros Hne; exact (Hne Hengine)).
    exists lock'. exact Hreplaced. }
  unfold PartialJoin_apply in Hresult.
  case_bool_decide as Hresolved.
  - apply bind_Ok in Hresult as (common & _ & Hresult).
    apply Hspot in Hresult as (lock' & Hresult); [| reflexivity].
    exact (PartialJoin_join_declared _ _ _ _ Hresult).
  - apply Hspot in Hresult as (lock' & Hresult); [| reflexivity].
    exact (PartialJoin_join_declared _ _ _ _ Hresult).
Qed.

End Invariants.

(** ** Examples of the invariants *)

Import PlainTrees.

Lemma apply_returns_what_the_operation_declares_witness :
  apply_operation (Selection (PredicateReference b)) where_a = Ok where_a_and_b
  /\ consistent where_a_and_b
  /\ columns where_a_and_b = {[a]} ∪ {[b]}
  /\ engine where_a_and_b = memory
  /\ max_rows where_a_and_b = Some 4.
Proof.
  split; [reflexivity |].
  exact (apply_returns_what_the_operation_declares
           (Selection (PredicateReference b)) where_a where_a_and_b
           ltac:(simpl; auto) eq_refl).
Defined.

Lemma join_apply_result_witness :
  Join_apply always ∅ None transferred_a transferred_b false false = Ok joined
  /\ columns joined = columns transferred_a ∪ columns transferred_b
  /\ engine joined = other_memory
  /\ max_rows joined = Some 15.
Proof.
  split; [reflexivity |].
  pose proof (join_apply_result always ∅ None transferred_a transferred_b joined
                false eq_refl) as (_ & _ & Hcolumns & Hengine & Hmax & _).
  exact (conj Hcolumns (conj Hengine Hmax)).
Defined.

Lemma chain_apply_result_witness :
  Chain_apply (leaf_a memory) (doomed memory) false false = Ok chained
  /\ min_rows chained = 2
  /\ max_rows chained = Some 5.
Proof.
  split; [reflexivity |].
  pose proof (chain_apply_result (leaf_a memory) (doomed memory) chained false
                eq_refl) as (_ & _ & _ & Hmin & Hmax & _).
  exact (conj Hmin (Hmax 5 0 eq_refl eq_refl)).
Defined.

Lemma selection_apply_keeps_columns_and_max_rows_witness :
  Selection_apply (PredicateReference a) transferred_a (Some memory)
    true false false false false
  = Ok (below_transfer (Selection (PredicateReference a)) {[a]})
  /\ columns (below_transfer (Selection (PredicateReference a)) {[a]})
     = columns transferred_a
  /\ max_rows (below_transfer (Selection (PredicateReference a)) {[a]})
     = max_rows transferred_a.
Proof.
  split; [reflexivity |].
  pose proof (selection_apply_keeps_columns_and_max_rows
                (PredicateReference a) transferred_a (Some memory)
                true false false false
                (below_transfer (Selection (PredicateReference a)) {[a]})
                ltac:(simpl; auto) eq_refl) as (_ & Hcolumns & Hmax & _).
  exact (conj Hcolumns Hmax).
Defined.

Lemma calculation_apply_adds_its_column_witness :
  Calculation_apply c (Reference a) transferred_a (Some memory)
    true false false false false
  = Ok (below_transfer (Calculation c (Reference a)) ({[a]} ∪ {[c]}))
  /\ columns (below_transfer (Calculation c (Reference a)) ({[a]} ∪ {[c]}))
     = columns transferred_a ∪ {[c]}
  /\ max_rows (below_transfer (Calculation c (Reference a)) ({[a]} ∪ {[c]}))
     = max_rows transferred_a.
Proof.
  split; [reflexivity |].
  pose proof (calculation_apply_adds_its_column
                c (Reference a) transferred_a (Some memory)
                true false false false
                (below_transfer (Calculation c (Reference a)) ({[a]} ∪ {[c]}))
                ltac:(simpl; auto) eq_refl) as (_ & Hcolumns & Hmax & _).
  exact (conj Hcolumns Hmax).
Defined.

Lemma sort_apply_keeps_columns_and_max_rows_witness :
  Sort_apply by_a transferred_a (Some memory) true false false false
  = Ok (below_transfer (Sort by_a) {[a]})
  /\ columns (below_transfer (Sort by_a) {[a]}) = columns transferred_a
  /\ max_rows (below_transfer (Sort by_a) {[a]}) = max_rows transferred_a.
Proof.
  split; [reflexivity |].
  pose proof (sort_apply_keeps_columns_and_max_rows
                by_a transferred_a (Some memory) true false false false
                (below_transfer (Sort by_a) {[a]})
                ltac:(simpl; auto) eq_refl) as (_ & Hcolumns & Hmax & _).
  exact (conj Hcolumns Hmax).
Defined.

Lemma deduplication_apply_keeps_columns_and_max_rows_witness :
  Deduplication_apply None transferred_a (Some memory)
    true false false false false
  = Ok (pushed_below_transfer [a] (leaf_a memory))
  /\ join_on_spine transferred_a = false
  /\ columns (pushed_below_transfer [a] (leaf_a memory)) = columns transferred_a
  /\ max_rows (pushed_below_transfer [a] (leaf_a memory))
     = max_rows transferred_a.
Proof.
  split; [reflexivity |]. split; [reflexivity |].
  pose proof (deduplication_apply_keeps_columns_and_max_rows
                None transferred_a (Some memory) true false false false
                (pushed_below_transfer [a] (leaf_a memory))
                ltac:(simpl; auto) ltac:(reflexivity) eq_refl)
    as (_ & Hcolumns & Hmax & _).
  exact (conj Hcolumns Hmax).
Defined.

Lemma row_bounds_stay_in_order_witness :
  regular deduplicated_slice
  /\ 0 <= min_rows deduplicated_slice
  /\ forall m, max_rows deduplicated_slice = Some m ->
               min_rows deduplicated_slice <= m.
Proof.
  assert (regular deduplicated_slice) as Hregular.
  { simpl. split; [split; [split; [lia | intros m [= <-]; lia] | lia] |].
    discriminate. }
  split; [exact Hregular |].
  exact (row_bounds_stay_in_order deduplicated_slice Hregular).
Defined.

Lemma apply_requires_the_columns_witness :
  apply_operation (Sort by_a) (leaf_ab memory)
  = Ok (UnaryOperationRelation (Sort by_a) (leaf_ab memory) ({[a]} ∪ {[b]}) false)
  /\ columns_required (Sort by_a) ⊆ columns (leaf_ab memory).
Proof.
  split; [reflexivity |].
  exact (apply_requires_the_columns (Sort by_a) (leaf_ab memory)
           (UnaryOperationRelation (Sort by_a) (leaf_ab memory)
              ({[a]} ∪ {[b]}) false)
           ltac:(discriminate) eq_refl).
Defined.

Lemma apply_never_stacks_what_it_merges_witness :
  simplified where_a = true
  /\ apply_operation (Selection (PredicateReference b)) where_a = Ok where_a_and_b
  /\ simplified where_a_and_b = true.
Proof.
  split; [reflexivity |]. split; [reflexivity |].
  exact (apply_never_stacks_what_it_merges (Selection (PredicateReference b))
           where_a where_a_and_b eq_refl eq_refl).
Defined.

Lemma deduplication_apply_builds_an_unlocked_node_witness :
  Deduplication_apply_here None (leaf_a memory) true false
  = Ok (UnaryOperationRelation (Deduplication (Some [a])) (leaf_a memory)
          {[a]} false)
  /\ exists key : list ColumnTag,
       UnaryOperationRelation (Deduplication (Some [a])) (leaf_a memory)
         {[a]} false
       = UnaryOperationRelation (Deduplication (Some key)) (leaf_a memory)
           (columns (leaf_a memory)) false
       /\ key <> [] /\ NoDup key
       /\ forall tag, tag ∈ key
                      <-> tag ∈ columns (leaf_a memory) /\ is_key tag = true.
Proof.
  split; [reflexivity |].
  exact (deduplication_apply_builds_an_unlocked_node None (leaf_a memory) true
           (UnaryOperationRelation (Deduplication (Some [a])) (leaf_a memory)
              {[a]} false)
           eq_refl).
Defined.

Lemma transfer_apply_is_idempotent_witness :
  Transfer_apply other_memory (leaf_a memory) false false = Ok transferred_a
  /\ engine transferred_a = other_memory
  /\ forall lock strip_ordering : bool,
       Transfer_apply other_memory transferred_a lock strip_ordering
       = Ok transferred_a.
Proof.
  split; [reflexivity |].
  pose proof (transfer_apply_is_idempotent other_memory (leaf_a memory) false
                transferred_a eq_refl) as (Hengine & _ & Hagain).
  exact (conj Hengine Hagain).
Defined.

Lemma materialization_apply_is_idempotent_witness :
  Materialization_apply None where_a "materialization" false false
  = Ok materialized_where_a
  /\ materialized materialized_where_a = true
  /\ forall (name : option string) (name_prefix : string)
            (lock strip_ordering : bool),
       Materialization_apply name materialized_where_a name_prefix
         lock strip_ordering
       = Ok materialized_where_a.
Proof.
  split; [reflexivity |].
  pose proof (materialization_apply_is_idempotent None where_a "materialization"
                false materialized_where_a eq_refl)
    as (Hmaterialized & _ & Hagain).
  exact (conj Hmaterialized Hagain).
Defined.

Lemma required_engine_must_occur_in_the_tree_witness :
  engine_occurs sql transferred_a = false
  /\ forall tag expr,
       Calculation_apply tag expr transferred_a (Some sql) true false true
         false false
       <> Ok transferred_a.
Proof.
  split; [reflexivity |].
  exact (proj1 (proj2 (required_engine_must_occur_in_the_tree transferred_a sql
                         true false transferred_a eq_refl))).
Defined.

Lemma transfer_puts_the_operation_in_the_preferred_engine_witness :
  Selection_apply (PredicateReference a) (leaf_a memory) (Some other_memory)
    false true false false false
  = Ok selected_after_transfer
  /\ engine selected_after_transfer = other_memory.
Proof.
  split; [reflexivity |].
  exact (proj1 (proj2 (proj2 (transfer_puts_the_operation_in_the_preferred_engine
                                (leaf_a memory) other_memory false false
                                selected_after_transfer I)))
           (PredicateReference a) ltac:(discriminate) eq_refl).
Defined.

Lemma partial_join_apply_joins_the_columns_witness :
  PartialJoin_apply (mkPartialJoin always ∅ None (leaf_b memory) false)
    transferred_a true false false false
  = Ok joined_below_transfer
  /\ columns joined_below_transfer
     = columns transferred_a ∪ columns (leaf_b memory)
  /\ forall strip_ordering lock : bool,
       PartialJoin_apply (mkPartialJoin always ∅ None (leaf_b memory) false)
         transferred_a true false strip_ordering lock
       = Ok joined_below_transfer.
Proof.
  split; [reflexivity |].
  pose proof (partial_join_apply_joins_the_columns
                (mkPartialJoin always ∅ None (leaf_b memory) false)
                transferred_a true false false joined_below_transfer
                I ltac:(simpl; auto) eq_refl) as (_ & Hcolumns & _ & Hsame).
  exact (conj Hcolumns (Hsame ltac:(discriminate))).
Defined.

Lemma partial_join_needs_no_other_column_test_witness :
  Join_partial always ∅ (Some ∅) (leaf_b memory) false false
  = Ok (mkPartialJoin always ∅ (Some ∅) (leaf_b memory) false)
  /\ PartialJoin_join (mkPartialJoin always ∅ (Some ∅) (leaf_b memory) false)
       (leaf_a memory) false false
     <> Raise ColumnError.
Proof.
  split; [reflexivity |].
  exact (partial_join_needs_no_other_column_test always ∅ (leaf_b memory) false
           (mkPartialJoin always ∅ (Some ∅) (leaf_b memory) false)
           (leaf_a memory) false false eq_refl ltac:(by_computation)).
Defined.

Lemma partial_join_apply_returns_what_it_declares_witness :
  PartialJoin_apply (mkPartialJoin always ∅ None (leaf_b memory) true)
    (leaf_a memory) true false false false
  = Ok (BinaryOperationRelation (Join always ∅ (Some ∅))
          (leaf_b memory) (leaf_a memory) ({[b]} ∪ {[a]}) false)
  /\ max_rows (BinaryOperationRelation (Join always ∅ (Some ∅))
                 (leaf_b memory) (leaf_a memory) ({[b]} ∪ {[a]}) false)
     = Some 15.
Proof.
  split; [reflexivity |].
  exact (proj2 (proj2 (partial_join_apply_returns_what_it_declares
                         (mkPartialJoin always ∅ None (leaf_b memory) true)
                         (leaf_a memory) true false false
                         (BinaryOperationRelation (Join always ∅ (Some ∅))
                            (leaf_b memory) (leaf_a memory) ({[b]} ∪ {[a]}) false)
                         eq_refl eq_refl))).
Defined.

Lemma apply_keeps_the_row_bounds_in_order_witness :
  apply_operation (Deduplication (Some [a])) (leaf_ab memory)
  = Ok (UnaryOperationRelation (Deduplication (Some [a])) (leaf_ab memory)
          ({[a]} ∪ {[b]}) false)
  /\ max_rows (leaf_ab memory) <> Some 0
  /\ regular (UnaryOperationRelation (Deduplication (Some [a])) (leaf_ab memory)
                ({[a]} ∪ {[b]}) false).
Proof.
  split; [reflexivity |]. split; [discriminate |].
  exact (proj1 (apply_keeps_the_row_bounds_in_order
                  (Deduplication (Some [a])) (leaf_ab memory)
                  (UnaryOperationRelation (Deduplication (Some [a]))
                     (leaf_ab memory) ({[a]} ∪ {[b]}) false)
                  ltac:(simpl; split; [lia | intros m [= <-]; lia])
                  ltac:(discriminate) ltac:(discriminate) eq_refl)).
Defined.

Lemma slice_beyond_a_slice_has_negative_min_rows_witness :
  slice_rooted (leaf_ab memory) = false
  /\ 5 - 0 < 10
  /\ min_rows (Slice_apply 10 (Some 20)
                 (UnaryOperationRelation (Slice 0 (Some 5)) (leaf_ab memory)
                    ({[a]} ∪ {[b]}) false) false) < 0.
Proof.
  split; [reflexivity |]. split; [lia |].
  exact (proj2 (slice_beyond_a_slice_has_negative_min_rows 0 5 10 (Some 20)
                  (leaf_ab memory) ({[a]} ∪ {[b]}) false false
                  eq_refl ltac:(lia))).
Defined.
